(** * Transition engine of the network attack simulator

    A shallow embedding of [CyberAttackSimulatorEnv]
    (cyber_attack_simulator/envs/environment.py): the three gates of [step],
    the in-place update of the agent's knowledge, goal detection, and the
    global pseudorandom generator the environment draws from.

    Python objects that are mutated in place (the current state, the set of
    compromised subnets, numpy's global generator) are threaded explicitly
    through an environment record.  A raised exception is a value of the
    [result] type. *)

From Stdlib Require Import QArith ZArith List Bool Lia.
From stdpp Require Import base gmap sets list strings pretty.

Local Open Scope Q_scope.
Local Open Scope nat_scope.

(** ** Exceptions *)

Inductive exn : Set := KeyError | IndexError.

Inductive result (A : Type) : Type :=
| Ok (a : A)
| Raise (e : exn).
Arguments Ok {A} a.
Arguments Raise {A} e.

(** Sequencing stops at the first exception; [x ← r; k] is stdpp's notation
    for it. *)
#[global] Instance result_bind : MBind result := λ A B k r,
  match r with
  | Ok a => k a
  | Raise e => Raise e
  end.

(** ** Addresses, services, actions *)

(** A machine address is the pair (subnet id, host id); [m.1] is [m[0]]. *)
Abbreviation address := (nat * nat)%type.

(** Modelled from the spec: the Action class (envs/action.py) is not part of
    the sources at hand.  An action is a tagged variant; a scan carries a
    target and a cost and always has probability 1.0, an exploit carries a
    target, a service, a cost and a success probability. *)
Inductive Action : Type :=
| Scan (target : address) (cost : Q)
| Exploit (target : address) (service : nat) (cost : Q) (prob : Q).

Definition target (a : Action) : address :=
  match a with Scan t _ => t | Exploit t _ _ _ => t end.

Definition cost (a : Action) : Q :=
  match a with Scan _ c => c | Exploit _ _ c _ => c end.

Definition prob (a : Action) : Q :=
  match a with Scan _ _ => 1%Q | Exploit _ _ _ p => p end.

Definition is_scan (a : Action) : bool :=
  match a with Scan _ _ => true | Exploit _ _ _ _ => false end.

(** ** The network the environment talks to *)

(** The interface of the Network class (envs/network.py, not part of the
    sources at hand) as far as the environment calls it.  [perform_action]
    answers [(success, value, services)], where [services] lists the items of
    a dictionary from service to presence.  [services_running] is the static
    ground truth of the topology, which the agent never reads directly. *)
Record Network : Type := {
  get_address_space : list address;
  get_sensitive_machines : list address;
  subnets_connected : nat → nat → bool;
  traffic_permitted : nat → nat → nat → bool;
  perform_action : Action → bool * Q * list (nat * bool);
  services_running : address → nat → bool
}.

(** ** What the agent knows *)

Inductive belief : Set := Unknown | Present | Absent.

#[global] Instance belief_eq_dec : EqDecision belief.
Proof. solve_decision. Defined.

(** Modelled from the spec: the State class (envs/state.py) is not part of
    the sources at hand.  The knowledge state holds the set of compromised
    machines, the set of reachable machines and, for each machine, a vector
    of beliefs with one entry per service. *)
Record State : Type := {
  compromised_set : gset address;
  reachable_set : gset address;
  service_belief : gmap address (list belief)
}.

Definition reachable (st : State) (m : address) : bool :=
  bool_decide (m ∈ reachable_set st).

Definition compromised (st : State) (m : address) : bool :=
  bool_decide (m ∈ compromised_set st).

Definition set_reachable (st : State) (m : address) : State :=
  {| compromised_set := compromised_set st;
     reachable_set := {[m]} ∪ reachable_set st;
     service_belief := service_belief st |}.

Definition set_compromised (st : State) (m : address) : State :=
  {| compromised_set := {[m]} ∪ compromised_set st;
     reachable_set := reachable_set st;
     service_belief := service_belief st |}.

(** An entry of the integer service vector is read for its truth value. *)
Definition belief_of (present : Z) : belief :=
  if (present =? 0)%Z then Absent else Present.

(** Entry [s] of the target's vector is overwritten; a target without a
    vector, or an index past its end, leaves the state as it is. *)
Definition update_service (st : State) (m : address) (s : nat) (present : Z)
  : State :=
  {| compromised_set := compromised_set st;
     reachable_set := reachable_set st;
     service_belief :=
       alter (λ vec, <[s := belief_of present]> vec) m (service_belief st) |}.

(** Modelled from the spec: State.generate_initial_state.  Nothing is
    compromised, only the machines of subnets adjacent to the ingress subnet
    are reachable, and every belief is unknown. *)
Definition generate_initial_state (internet : nat) (N : Network)
  (num_services : nat) : State :=
  {| compromised_set := ∅;
     reachable_set :=
       list_to_set
         (filter (λ m, subnets_connected N internet m.1 = true)
                 (get_address_space N));
     service_belief :=
       list_to_map
         ((λ m, (m, replicate num_services Unknown)) <$> get_address_space N) |}.

(** ** The service map of the constructor *)

Fixpoint enumerate_from {A} (i : nat) (l : list A) : list (nat * A) :=
  match l with
  | [] => []
  | x :: l' => (i, x) :: enumerate_from (S i) l'
  end.

(** [for i, service in enumerate(service_exploits.keys()):
       self.service_map[service] = i] *)
Definition build_service_map (keys : list nat) : gmap nat nat :=
  foldl (λ m p, <[p.2 := p.1]> m) ∅ (enumerate_from 0 keys).

Definition _get_service_index (service_map : gmap nat nat) (service : nat)
  : result nat :=
  match service_map !! service with
  | Some i => Ok i
  | None => Raise KeyError
  end.

(** The loop of [_vectorize]: [vector[i] = v] for every item, where an index
    outside the array raises. *)
Fixpoint fill_vector (service_map : gmap nat nat) (items : list (nat * bool))
  (vector : list Z) : result (list Z) :=
  match items with
  | [] => Ok vector
  | (s, v) :: items' =>
      i ← _get_service_index service_map s;
      if i <? length vector
      then fill_vector service_map items' (<[i := Z.b2z v]> vector)
      else Raise IndexError
  end.

Definition _vectorize (service_map : gmap nat nat)
  (services : list (nat * bool)) : result (list Z) :=
  if length services =? 0 then Ok []
  else fill_vector service_map services (replicate (length services) 0%Z).

(** [x > y] on rationals, as a boolean. *)
Definition Qgt_bool (x y : Q) : bool := negb (Qle_bool x y).

(** ** The environment *)

Section Environment.

(** numpy's global generator: its state, [np.random.seed] and
    [np.random.rand], which hands back a draw and the next state. *)
Variable G : Type.
Variable np_seed : nat → G.
Variable np_rand : G → Q * G.

(** [loader.INTERNET], the id of the ingress subnet. *)
Variable INTERNET : nat.

(** The fields of a [CyberAttackSimulatorEnv] that [step] and [reset] read
    or write, together with the global generator. *)
Record Env : Type := {
  network : Network;
  num_services : nat;
  service_map : gmap nat nat;
  init_state : State;
  current_state : State;
  compromised_subnets : gset nat;
  np_random : G
}.

Definition with_current_state (e : Env) (st : State) : Env :=
  {| network := network e; num_services := num_services e;
     service_map := service_map e; init_state := init_state e;
     current_state := st;
     compromised_subnets := compromised_subnets e;
     np_random := np_random e |}.

Definition with_compromised_subnets (e : Env) (cs : gset nat) : Env :=
  {| network := network e; num_services := num_services e;
     service_map := service_map e; init_state := init_state e;
     current_state := current_state e;
     compromised_subnets := cs;
     np_random := np_random e |}.

Definition with_np_random (e : Env) (g : G) : Env :=
  {| network := network e; num_services := num_services e;
     service_map := service_map e; init_state := init_state e;
     current_state := current_state e;
     compromised_subnets := compromised_subnets e;
     np_random := g |}.

(** The knowledge state of the spec: the state object together with the
    cached set of compromised subnets. *)
Definition knowledge (e : Env) : State * gset nat :=
  (current_state e, compromised_subnets e).

(** [reset]: the current state becomes a copy of the initial state and the
    ingress subnet is the only compromised subnet.  The generator is not
    touched. *)
Definition reset (e : Env) : Env :=
  with_compromised_subnets (with_current_state e (init_state e))
                           {[INTERNET]}.

(** [__init__]: seeds the global generator (whatever state [g] it was in),
    builds the service map and the initial state, and resets.  [N] stands
    for [Network(config)] and [keys] for [config["service_exploits"].keys()].
    Before the reset the current state is [None]; the record holds the
    initial state there. *)
Definition __init__ (N : Network) (n_services : nat) (keys : list nat)
  (seed : nat) (g : G) : Env :=
  let g' := np_seed seed in
  let init := generate_initial_state INTERNET N n_services in
  reset {| network := N; num_services := n_services;
           service_map := build_service_map keys;
           init_state := init; current_state := init;
           compromised_subnets := ∅;
           np_random := g' |}.

Definition _action_traffic_permitted (e : Env) (a : Action) : bool :=
  if negb (reachable (current_state e) (target a)) then false
  else
    match a with
    | Scan _ _ => true
    | Exploit tgt service _ _ =>
        existsb (λ src, traffic_permitted (network e) src tgt.1 service)
                (elements (compromised_subnets e))
    end.

(** [for s in range(len(services)):
       update_service(target, s, services[s])], started at index [s]. *)
Fixpoint update_services (st : State) (tgt : address) (s : nat)
  (services : list Z) : State :=
  match services with
  | [] => st
  | v :: services' =>
      update_services (update_service st tgt s v) tgt (S s) services'
  end.

Definition _update_reachable (N : Network) (st : State)
  (compromised_m : address) : State :=
  let comp_subnet := compromised_m.1 in
  foldl (λ st m,
           if reachable st m then st
           else if subnets_connected N comp_subnet m.1
                then set_reachable st m else st)
        st (get_address_space N).

Definition _update_state (e : Env) (a : Action) (success : bool)
  (services : list Z) : Env :=
  let tgt := target a in
  if is_scan a || (negb (is_scan a) && success) then
    let e1 :=
      with_current_state e
        (update_services (current_state e) tgt 0 services) in
    if negb (is_scan a) then
      let e2 :=
        with_current_state e1 (set_compromised (current_state e1) tgt) in
      let e3 :=
        with_compromised_subnets e2 ({[tgt.1]} ∪ compromised_subnets e2) in
      with_current_state e3
        (_update_reachable (network e3) (current_state e3) tgt)
    else e1
  else e.

Definition _is_goal (e : Env) : bool :=
  forallb (λ sensitive_m, compromised (current_state e) sensitive_m)
          (get_sensitive_machines (network e)).

(** [step] answers the environment after the call (whose current state is
    the observation), the reward and the terminal flag. *)
Definition step (e : Env) (a : Action) : result (Env * Q * bool) :=
  if negb (reachable (current_state e) (target a))
  then Ok (e, 0 - cost a, false)%Q
  else if negb (_action_traffic_permitted e a)
  then Ok (e, 0 - cost a, false)%Q
  else
    let (draw, g') := np_rand (np_random e) in
    let e := with_np_random e g' in
    if Qgt_bool draw (prob a) then Ok (e, 0 - cost a, false)%Q
    else
      let '(success, value, services) := perform_action (network e) a in
      service_vector ← _vectorize (service_map e) services;
      let value := if compromised (current_state e) (target a)
                   then 0%Q else value in
      let e := _update_state e a success service_vector in
      let done := _is_goal e in
      let reward := (value - cost a)%Q in
      Ok (e, reward, done).

(** A run feeds a list of actions to [step] and collects the rewards and
    the terminal flags. *)
Fixpoint run (e : Env) (actions : list Action)
  : result (Env * list Q * list bool) :=
  match actions with
  | [] => Ok (e, [], [])
  | a :: actions' =>
      '(e1, reward, done) ← step e a;
      '(e2, rewards, dones) ← run e1 actions';
      Ok (e2, reward :: rewards, done :: dones)
  end.

End Environment.

Arguments network {G} e.
Arguments num_services {G} e.
Arguments service_map {G} e.
Arguments init_state {G} e.
Arguments current_state {G} e.
Arguments compromised_subnets {G} e.
Arguments np_random {G} e.
Arguments knowledge {G} e.
Arguments with_current_state {G} e st.
Arguments with_compromised_subnets {G} e cs.
Arguments with_np_random {G} e g.
Arguments reset {G} INTERNET e.
Arguments __init__ {G} np_seed INTERNET N n_services keys seed g.
Arguments _action_traffic_permitted {G} e a.
Arguments _update_state {G} e a success services.
Arguments _is_goal {G} e.
Arguments step {G} np_rand e a.
Arguments run {G} np_rand e actions.

(** ** What the environment expects of its collaborators *)

(** The service dictionary of machine [m]: one item per configured service,
    each carrying the ground truth. *)
Definition full_dict (N : Network) (keys : list nat) (m : address)
  (services : list (nat * bool)) : Prop :=
  NoDup services.*1 ∧
  (∀ s, s ∈ services.*1 ↔ s ∈ keys) ∧
  (∀ s v, (s, v) ∈ services → v = services_running N m s).

(** A network reports truthfully when every answer of [perform_action]
    carries either no service at all or the target's full dictionary, and a
    scan and a successful exploit always carry the full dictionary. *)
Record truthful (N : Network) (keys : list nat) : Prop := {
  truthful_keys : NoDup keys;
  truthful_shape : ∀ a,
    (perform_action N a).2 = [] ∨
    full_dict N keys (target a) (perform_action N a).2;
  truthful_reveal : ∀ a,
    is_scan a = true ∨ (perform_action N a).1.1 = true →
    full_dict N keys (target a) (perform_action N a).2
}.

(** The belief the ground truth prescribes for service [s] of machine [m]. *)
Definition true_belief (N : Network) (m : address) (s : nat) : belief :=
  if services_running N m s then Present else Absent.

(** Entry [i] of the belief vector of machine [m], if there is one. *)
Definition belief_entry (st : State) (m : address) (i : nat) : option belief :=
  service_belief st !! m ≫= (.!! i).

(** Every machine of the network has a belief vector of the configured
    length, only machines of the network are reachable, and every belief
    that is not unknown agrees with the ground truth. *)
Record state_ok (N : Network) (keys : list nat) (st : State) : Prop := {
  ok_reachable : ∀ m, m ∈ reachable_set st → m ∈ get_address_space N;
  ok_vectors : ∀ m, m ∈ get_address_space N →
    ∃ vec, service_belief st !! m = Some vec ∧ length vec = length keys;
  ok_sound : ∀ m i b, belief_entry st m i = Some b → b ≠ Unknown →
    ∃ s, keys !! i = Some s ∧ b = true_belief N m s
}.

Record env_ok {G} (keys : list nat) (e : Env G) : Prop := {
  ok_network : truthful (network e) keys;
  ok_service_map : service_map e = build_service_map keys;
  ok_current : state_ok (network e) keys (current_state e);
  ok_init : state_ok (network e) keys (init_state e)
}.

(** The environments a program can hold: a freshly constructed one over a
    truthful network, and whatever [step] and [reset] make of it. *)
Inductive episode_state {G} (np_seed : nat → G) (np_rand : G → Q * G)
  (INTERNET : nat) (keys : list nat) : Env G → Prop :=
| episode_init N seed g :
    truthful N keys →
    episode_state np_seed np_rand INTERNET keys
      (__init__ np_seed INTERNET N (length keys) keys seed g)
| episode_step e a e' reward done :
    episode_state np_seed np_rand INTERNET keys e →
    step np_rand e a = Ok (e', reward, done) →
    episode_state np_seed np_rand INTERNET keys e'
| episode_reset e :
    episode_state np_seed np_rand INTERNET keys e →
    episode_state np_seed np_rand INTERNET keys (reset INTERNET e).

(** The knowledge of [e2] is at least that of [e1]. *)
Definition knows_no_less {G} (e1 e2 : Env G) : Prop :=
  compromised_set (current_state e1) ⊆ compromised_set (current_state e2) ∧
  reachable_set (current_state e1) ⊆ reachable_set (current_state e2) ∧
  ∀ m i b, b ≠ Unknown →
    belief_entry (current_state e1) m i = Some b →
    belief_entry (current_state e2) m i = Some b.

(** One of the three gates of [step] turns the action away: the target is
    not reachable, or the action is an exploit that no compromised subnet may
    send to the target's subnet, or the draw exceeds the probability. *)
Definition gate_fails {G} (np_rand : G → Q * G) (e : Env G) (a : Action)
  : Prop :=
  target a ∉ reachable_set (current_state e) ∨
  (∃ tgt service c p, a = Exploit tgt service c p ∧
     ∀ src, src ∈ compromised_subnets e →
            traffic_permitted (network e) src tgt.1 service = false) ∨
  (prob a < (np_rand (np_random e)).1)%Q.

(** The three gates let the action through. *)
Definition gates_pass {G} (np_rand : G → Q * G) (e : Env G) (a : Action)
  : Prop :=
  reachable (current_state e) (target a) = true ∧
  _action_traffic_permitted e a = true ∧
  Qgt_bool (np_rand (np_random e)).1 (prob a) = false.

(** Two environments that agree on everything but the generator, whose
    states are related by [R]. *)
Definition same_but_generator {G1 G2} (R : G1 → G2 → Prop)
  (e1 : Env G1) (e2 : Env G2) : Prop :=
  network e1 = network e2 ∧ num_services e1 = num_services e2 ∧
  service_map e1 = service_map e2 ∧ init_state e1 = init_state e2 ∧
  current_state e1 = current_state e2 ∧
  compromised_subnets e1 = compromised_subnets e2 ∧
  R (np_random e1) (np_random e2).

(** Two answers of [step] or [run] that agree on everything but the
    generator. *)
Definition same_outcome {G1 G2 A B} (R : G1 → G2 → Prop)
  (r1 : result (Env G1 * A * B)) (r2 : result (Env G2 * A * B)) : Prop :=
  match r1, r2 with
  | Ok (e1, x1, y1), Ok (e2, x2, y2) =>
      same_but_generator R e1 e2 ∧ x1 = x2 ∧ y1 = y2
  | Raise x1, Raise x2 => x1 = x2
  | _, _ => False
  end.

(** What the loop of [update_services] does to one belief vector. *)
Fixpoint write_beliefs (s : nat) (services : list Z) (vec : list belief)
  : list belief :=
  match services with
  | [] => vec
  | v :: services' => write_beliefs (S s) services' (<[s := belief_of v]> vec)
  end.

(** ** A small network to run the engine on *)

(** Modelled from the spec: Network.perform_action.  A scan succeeds, yields
    no value and the target's services; an exploit of a running service
    succeeds and yields the target's value and services; any other exploit
    fails and yields nothing. *)
Definition spec_perform_action (running : address → nat → bool)
  (value : address → Q) (keys : list nat) (a : Action)
  : bool * Q * list (nat * bool) :=
  let dict := (λ s, (s, running (target a) s)) <$> keys in
  match a with
  | Scan _ _ => (true, 0%Q, dict)
  | Exploit tgt service _ _ =>
      if running tgt service then (true, value tgt, dict)
      else (false, 0%Q, [])
  end.

Definition demo_keys : list nat := [0; 1].

Definition demo_running (m : address) (s : nat) : bool :=
  match m, s with
  | (1, 0), 0 => true
  | (2, 0), _ => true
  | (3, 0), 1 => true
  | _, _ => false
  end.

Definition demo_value (m : address) : Q :=
  match m with
  | (1, 0) => 10%Q
  | (2, 0) => 10%Q
  | _ => 0%Q
  end.

(** Ingress subnet 0 next to subnet 1, subnet 1 next to subnet 2, subnet 3
    on its own; one machine per subnet; the firewall lets service 0 pass from
    0 to 1 and from 1 to 2, and nothing else; (1,0) and (2,0) are sensitive. *)
Definition demo_network : Network :=
  {| get_address_space := [(1, 0); (2, 0); (3, 0)];
     get_sensitive_machines := [(1, 0); (2, 0)];
     subnets_connected := λ a b,
       (a =? b) || ((a =? 0) && (b =? 1)) || ((a =? 1) && (b =? 0))
       || ((a =? 1) && (b =? 2)) || ((a =? 2) && (b =? 1));
     traffic_permitted := λ src dest service,
       ((src =? 0) && (dest =? 1) && (service =? 0))
       || ((src =? 1) && (dest =? 2) && (service =? 0));
     perform_action := spec_perform_action demo_running demo_value demo_keys;
     services_running := demo_running |}.

(** A linear congruential generator on 0..99; the draw is state/100. *)
Definition lcg_seed (seed : nat) : nat := seed mod 100.

Definition lcg_rand (g : nat) : Q * nat :=
  let g' := (21 * g + 7) mod 100 in
  (Z.of_nat g' # 100, g').

Definition demo_env (seed : nat) : Env nat :=
  __init__ lcg_seed 0 demo_network 2 demo_keys seed 0.

Definition scan_10 : Action := Scan (1, 0) 1.
Definition scan_30 : Action := Scan (3, 0) 1.
Definition exploit_10 : Action := Exploit (1, 0) 0 1 1.
Definition exploit_20 : Action := Exploit (2, 0) 0 1 1.
Definition exploit_20_blocked : Action := Exploit (2, 0) 1 1 1.
Definition exploit_10_unlikely : Action := Exploit (1, 0) 0 1 (1 # 100).

(** The rewards a run answered. *)
Definition rewards_of {G} (r : result (Env G * list Q * list bool)) : list Q :=
  match r with
  | Ok (_, rewards, _) => rewards
  | Raise _ => []
  end.

(** The terminal flags a run answered. *)
Definition dones_of {G} (r : result (Env G * list Q * list bool)) : list bool :=
  match r with
  | Ok (_, _, dones) => dones
  | Raise _ => []
  end.

(** The environment left by a run, or the one it started from if the run
    raised. *)
Definition after {G} (np_rand : G → Q * G) (e : Env G)
  (actions : list Action) : Env G :=
  match run np_rand e actions with
  | Ok (e', _, _) => e'
  | Raise _ => e
  end.

(** A network like the demonstration network whose machines report
    service 1 only. *)
Definition partial_network : Network :=
  {| get_address_space := get_address_space demo_network;
     get_sensitive_machines := get_sensitive_machines demo_network;
     subnets_connected := subnets_connected demo_network;
     traffic_permitted := traffic_permitted demo_network;
     perform_action := λ a, (true, 0%Q, [(1, true)]);
     services_running := services_running demo_network |}.

Definition partial_env (seed : nat) : Env nat :=
  __init__ lcg_seed 0 partial_network 2 demo_keys seed 0.

(** ** The name of the output file *)

(** The values the constructor takes for [exploit_probs]: [None], a list
    of probabilities, a number, or a string such as the default ['mixed']. *)
Inductive ExploitProbs : Type :=
| ProbsNone
| ProbsList (probs : list Q)
| ProbsNumber (p : Q)
| ProbsString (name : string).

(** ["{}".format(l)] for a list of integers: [[3, 1, 2]]. *)
Definition format_int_list (l : list nat) : string :=
  "[" +:+ String.concat ", " (pretty <$> l) +:+ "]".

(** [outfile_name]; [subnets] stands for [self.network.subnets], the list of
    the sizes of the subnets.  When [exploit_probs] is neither [None] nor a
    list, [deterministic] is ["det"] if it equals 1.0 and the boolean
    [False] otherwise, which [format] prints as ["False"]. *)
Definition outfile_name (subnets : list nat) (n_services : nat)
  (exploit_probs : ExploitProbs) : string :=
  let output := format_int_list subnets +:+ "_" in
  let output := output +:+ (pretty n_services +:+ "_") in
  let deterministic :=
    match exploit_probs with
    | ProbsNone | ProbsList _ => "stoch"
    | ProbsNumber p => if Qeq_bool p 1 then "det" else "False"
    | ProbsString _ => "False"
    end in
  output +:+ deterministic.

Definition ends_with (suffix s : string) : Prop := ∃ p, s = p +:+ suffix.

Fixpoint last_char (s : string) : option Ascii.ascii :=
  match s with
  | EmptyString => None
  | String c EmptyString => Some c
  | String _ s' => last_char s'
  end.

(** ** Notions for the properties of whole runs *)

(** The three sets of the knowledge state. *)
Definition knowledge_sets {G} (e : Env G)
  : gset address * gset address * gset nat :=
  (compromised_set (current_state e), reachable_set (current_state e),
   compromised_subnets e).

(** The cache of compromised subnets holds the ingress subnet and the
    subnets of the compromised machines, and nothing else. *)
Definition subnet_cache_exact {G} (INTERNET : nat) (e : Env G) : Prop :=
  compromised_subnets e =
  {[INTERNET]} ∪ set_map fst (compromised_set (current_state e)).

(** The generator state after [k] draws. *)
Definition draws {G} (np_rand : G → Q * G) (k : nat) (g : G) : G :=
  Nat.iter k (λ g, (np_rand g).2) g.

(** * Properties *)

(** ** Rational comparisons *)

Lemma Qgt_bool_true x y : Qgt_bool x y = true ↔ (y < x)%Q.
Proof.
  unfold Qgt_bool. rewrite negb_true_iff.
  split.
  - intros H. apply Qnot_le_lt. intros Hle.
    apply Qle_bool_iff in Hle. congruence.
  - intros H. destruct (Qle_bool x y) eqn:E; [|done].
    apply Qle_bool_iff in E. exfalso. by eapply Qlt_not_le.
Qed.

Lemma Qgt_bool_false x y : Qgt_bool x y = false ↔ (x <= y)%Q.
Proof.
  unfold Qgt_bool. rewrite negb_false_iff. apply Qle_bool_iff.
Qed.

Lemma zero_minus_cost (c : Q) : (0 - c == - c)%Q.
Proof. ring. Qed.

(** ** One episode on the demonstration network *)

(** A scan costs 1; the exploit of (1,0) earns 10 - 1; service 1 is not let
    through to subnet 2; the exploit of (2,0) over service 0 completes the
    goal; (3,0) is never reachable. *)
Example demo_episode :
  let r := run lcg_rand (demo_env 1)
             [scan_10; exploit_10; exploit_20_blocked; exploit_20; scan_30] in
  rewards_of r = [(-1)%Q; 9%Q; (-1)%Q; 9%Q; (-1)%Q] ∧
  dones_of r = [false; false; false; true; false].
Proof. split; vm_compute; reflexivity. Qed.

(** ** The gates of [step] *)

Section Gates.

Context {G : Type} (np_rand : G → Q * G).
Implicit Types (e : Env G) (a : Action).

Lemma step_unreachable e a :
  reachable (current_state e) (target a) = false →
  step np_rand e a = Ok (e, 0 - cost a, false)%Q.
Proof. intros H. unfold step. by rewrite H. Qed.

Lemma step_not_permitted e a :
  _action_traffic_permitted e a = false →
  step np_rand e a = Ok (e, 0 - cost a, false)%Q.
Proof.
  intros H. unfold step. rewrite H.
  by destruct (reachable (current_state e) (target a)).
Qed.

Lemma step_draw_too_high e a :
  reachable (current_state e) (target a) = true →
  _action_traffic_permitted e a = true →
  Qgt_bool (np_rand (np_random e)).1 (prob a) = true →
  step np_rand e a =
    Ok (with_np_random e (np_rand (np_random e)).2, 0 - cost a, false)%Q.
Proof.
  intros Hr Hp Hd. unfold step. rewrite Hr, Hp. simpl.
  destruct (np_rand (np_random e)) as [draw g']. simpl in *.
  by rewrite Hd.
Qed.

(** The rest of the pipeline, once the three gates are behind. *)
Lemma step_full_pipeline e a :
  reachable (current_state e) (target a) = true →
  _action_traffic_permitted e a = true →
  Qgt_bool (np_rand (np_random e)).1 (prob a) = false →
  step np_rand e a =
    (let e1 := with_np_random e (np_rand (np_random e)).2 in
     service_vector ←
       _vectorize (service_map e) (perform_action (network e) a).2;
     let e2 := _update_state e1 a (perform_action (network e) a).1.1
                 service_vector in
     Ok (e2,
         ((if compromised (current_state e) (target a)
           then 0 else (perform_action (network e) a).1.2) - cost a)%Q,
         _is_goal e2)).
Proof.
  intros Hr Hp Hd. unfold step. rewrite Hr, Hp. simpl.
  destruct (np_rand (np_random e)) as [draw g']. simpl in *.
  rewrite Hd.
  by destruct (perform_action (network e) a) as [[success value] services].
Qed.

Lemma permitted_reachable e a :
  _action_traffic_permitted e a = true →
  reachable (current_state e) (target a) = true.
Proof.
  unfold _action_traffic_permitted.
  by destruct (reachable (current_state e) (target a)).
Qed.

Lemma permitted_exploit e tgt service c p :
  _action_traffic_permitted e (Exploit tgt service c p) = true ↔
  reachable (current_state e) tgt = true ∧
  ∃ src, src ∈ compromised_subnets e ∧
         traffic_permitted (network e) src tgt.1 service = true.
Proof.
  unfold _action_traffic_permitted. simpl.
  destruct (reachable (current_state e) tgt); simpl.
  - rewrite existsb_exists. split.
    + intros (src & Hin & Ht). split; [done|]. exists src.
      split; [|done]. apply elem_of_elements. by apply list_elem_of_In.
    + intros (_ & src & Hin & Ht). exists src. split; [|done].
      apply list_elem_of_In. by apply elem_of_elements.
  - split; [done|]. by intros [? _].
Qed.

End Gates.

Section EarlyExit.

Context {G : Type} (np_rand : G → Q * G).
Implicit Types (e : Env G) (a : Action).

Lemma gate_fails_cases e a :
  gate_fails np_rand e a →
  reachable (current_state e) (target a) = false ∨
  _action_traffic_permitted e a = false ∨
  (reachable (current_state e) (target a) = true ∧
   _action_traffic_permitted e a = true ∧
   Qgt_bool (np_rand (np_random e)).1 (prob a) = true).
Proof.
  intros Hfail.
  destruct (reachable (current_state e) (target a)) eqn:Hr; [|by left].
  destruct (_action_traffic_permitted e a) eqn:Hp; [|by right; left].
  right; right. repeat split.
  destruct Hfail as [Hfail | [Hfail | Hfail]].
  - unfold reachable in Hr. apply bool_decide_eq_true in Hr. done.
  - destruct Hfail as (tgt & service & c & p & -> & Hnone).
    apply permitted_exploit in Hp as (_ & src & Hin & Ht).
    rewrite (Hnone src Hin) in Ht. done.
  - by apply Qgt_bool_true.
Qed.

Lemma gate_fails_step e a :
  gate_fails np_rand e a →
  ∃ e', step np_rand e a = Ok (e', 0 - cost a, false)%Q ∧
        knowledge e' = knowledge e ∧
        network e' = network e.
Proof.
  intros Hfail.
  destruct (gate_fails_cases e a Hfail) as [H | [H | (Hr & Hp & Hd)]].
  - exists e. by rewrite step_unreachable.
  - exists e. by rewrite step_not_permitted.
  - eexists. by rewrite step_draw_too_high.
Qed.

End EarlyExit.

(** C1. Whenever a gate turns the action away (unreachable target, exploit
    without firewall admission from any compromised subnet, or a draw above
    the action's probability), [step] answers the reward [-cost] and the
    terminal flag [false], and the knowledge state (compromised set,
    reachable set, service beliefs, compromised subnets) is the one it
    started from. *)
Theorem gate_failure_costs_only {G} (np_rand : G → Q * G) (e : Env G)
  (a : Action) :
  gate_fails np_rand e a →
  ∃ e' reward,
    step np_rand e a = Ok (e', reward, false) ∧
    (reward == - cost a)%Q ∧
    knowledge e' = knowledge e.
Proof.
  intros Hfail.
  destruct (gate_fails_step np_rand e a Hfail) as (e' & Hstep & Hk & _).
  exists e', (0 - cost a)%Q. split; [done|]. split; [|done].
  apply zero_minus_cost.
Qed.

Lemma gate_failure_costs_only_witness :
  ∃ e' reward,
    step lcg_rand (demo_env 1) scan_30 = Ok (e', reward, false) ∧
    (reward == - cost scan_30)%Q ∧
    knowledge e' = knowledge (demo_env 1).
Proof.
  apply gate_failure_costs_only.
  left. apply (bool_decide_unpack _). vm_compute. exact I.
Defined.

(** C5. On a reachable target, an exploit is admitted exactly when some
    compromised subnet may send the exploit's service to the target's subnet,
    whichever subnet that is; a scan is always admitted. *)
Theorem admission_is_existential {G} (e : Env G) (a : Action) :
  target a ∈ reachable_set (current_state e) →
  match a with
  | Scan _ _ => _action_traffic_permitted e a = true
  | Exploit tgt service _ _ =>
      _action_traffic_permitted e a = true ↔
      ∃ src, src ∈ compromised_subnets e ∧
             traffic_permitted (network e) src tgt.1 service = true
  end.
Proof.
  intros Hin.
  assert (reachable (current_state e) (target a) = true) as Hr
    by (by apply bool_decide_eq_true).
  destruct a as [tgt c | tgt service c p]; simpl in *.
  - unfold _action_traffic_permitted. simpl. by rewrite Hr.
  - rewrite permitted_exploit, Hr.
    split; [by intros [_ Hsrc] | by intros Hsrc; split].
Qed.

Lemma admission_is_existential_witness :
  _action_traffic_permitted (demo_env 1) exploit_10 = true ↔
  ∃ src, src ∈ compromised_subnets (demo_env 1) ∧
         traffic_permitted (network (demo_env 1)) src 1 0 = true.
Proof.
  apply (admission_is_existential (demo_env 1) exploit_10).
  apply (bool_decide_unpack _). vm_compute. exact I.
Defined.

(** ** What [_update_state] leaves alone *)

Section Frames.

Context {G : Type}.
Implicit Types (e : Env G) (a : Action) (st : State).

Lemma update_service_belief st m s v :
  service_belief (update_service st m s v) =
  alter (λ vec, <[s := belief_of v]> vec) m (service_belief st).
Proof. done. Qed.

Lemma update_services_compromised st tgt s vs :
  compromised_set (update_services st tgt s vs) = compromised_set st.
Proof.
  revert st s. induction vs as [|v vs IH]; intros st s; simpl; [done|].
  by rewrite IH.
Qed.

Lemma update_services_reachable st tgt s vs :
  reachable_set (update_services st tgt s vs) = reachable_set st.
Proof.
  revert st s. induction vs as [|v vs IH]; intros st s; simpl; [done|].
  by rewrite IH.
Qed.

Lemma update_services_belief st tgt s vs :
  service_belief (update_services st tgt s vs) =
  alter (write_beliefs s vs) tgt (service_belief st).
Proof.
  revert st s. induction vs as [|v vs IH]; intros st s; simpl.
  - apply map_eq. intros m.
    destruct (decide (tgt = m)) as [->|Hne].
    + rewrite lookup_alter_eq. by destruct (service_belief st !! m).
    + by rewrite lookup_alter_ne.
  - rewrite IH, update_service_belief.
    apply map_eq. intros m.
    destruct (decide (tgt = m)) as [->|Hne].
    + rewrite !lookup_alter_eq. by destruct (service_belief st !! m).
    + by rewrite !lookup_alter_ne.
Qed.

Lemma update_state_frame e a success vec :
  np_random (_update_state e a success vec) = np_random e ∧
  network (_update_state e a success vec) = network e ∧
  service_map (_update_state e a success vec) = service_map e ∧
  num_services (_update_state e a success vec) = num_services e ∧
  init_state (_update_state e a success vec) = init_state e.
Proof.
  unfold _update_state.
  destruct (is_scan a), success; done.
Qed.

End Frames.

(** C9, as the code has it. The generator is consulted exactly once by every
    call of [step] whose action, scan or exploit, passes the reachability and
    admission gates, and not at all by a call that one of these two gates
    turns away. *)
Theorem generator_consulted_once_past_two_gates {G} (np_rand : G → Q * G)
  (e e' : Env G) (a : Action) (reward : Q) (done : bool) :
  step np_rand e a = Ok (e', reward, done) →
  np_random e' =
    if reachable (current_state e) (target a) && _action_traffic_permitted e a
    then (np_rand (np_random e)).2
    else np_random e.
Proof.
  intros Hstep.
  destruct (reachable (current_state e) (target a)) eqn:Hr; simpl.
  2: { rewrite step_unreachable in Hstep by done. by inversion Hstep. }
  destruct (_action_traffic_permitted e a) eqn:Hp.
  2: { rewrite step_not_permitted in Hstep by done. by inversion Hstep. }
  destruct (Qgt_bool (np_rand (np_random e)).1 (prob a)) eqn:Hd.
  - rewrite step_draw_too_high in Hstep by done. by inversion Hstep.
  - rewrite step_full_pipeline in Hstep by done. simpl in Hstep.
    destruct (_vectorize _ _) as [vec|err]; simpl in Hstep; [|done].
    inversion Hstep; subst.
    by rewrite (proj1 (update_state_frame _ _ _ _)).
Qed.

Lemma generator_consulted_once_past_two_gates_witness :
  np_random (after lcg_rand (demo_env 1) [exploit_10]) =
    if reachable (current_state (demo_env 1)) (target exploit_10)
       && _action_traffic_permitted (demo_env 1) exploit_10
    then (lcg_rand (np_random (demo_env 1))).2
    else np_random (demo_env 1).
Proof.
  apply (generator_consulted_once_past_two_gates lcg_rand (demo_env 1) _
           exploit_10 (9 # 1) false).
  vm_compute. reflexivity.
Defined.

(** C9, as the claim has it, fails: a scan of the reachable machine (1,0)
    moves the generator from state 1 to state 28. *)
Lemma scan_consults_generator :
  ∃ e' reward done,
    step lcg_rand (demo_env 1) scan_10 = Ok (e', reward, done) ∧
    is_scan scan_10 = true ∧
    np_random (demo_env 1) = 1 ∧
    np_random e' = 28.
Proof.
  eexists _, _, _. split; [vm_compute; reflexivity|]. done.
Qed.

(** C10. When the goal already holds and a gate turns the action away,
    [step] answers the terminal flag [false] although every sensitive machine
    is compromised before and after the call. *)
Theorem early_exit_hides_goal {G} (np_rand : G → Q * G) (e : Env G)
  (a : Action) :
  _is_goal e = true →
  gate_fails np_rand e a →
  ∃ e' reward,
    step np_rand e a = Ok (e', reward, false) ∧
    _is_goal e' = true.
Proof.
  intros Hgoal Hfail.
  destruct (gate_fails_step np_rand e a Hfail) as (e' & Hstep & Hk & Hn).
  exists e', (0 - cost a)%Q. split; [done|].
  unfold knowledge in Hk. injection Hk as Hst _.
  unfold _is_goal in *. by rewrite Hn, Hst.
Qed.

Lemma early_exit_hides_goal_witness :
  ∃ e' reward,
    step lcg_rand (after lcg_rand (demo_env 1) [exploit_10; exploit_20])
         scan_30 = Ok (e', reward, false) ∧
    _is_goal e' = true.
Proof.
  apply early_exit_hides_goal.
  - vm_compute. reflexivity.
  - left. apply (bool_decide_unpack _). vm_compute. exact I.
Defined.

(** C6. An action against a machine that is already compromised earns no
    value: whatever the kind of the action and whatever the draw, every
    reward [step] answers is [-cost]; and [step] does answer as soon as the
    services handed back by the network can be put into a vector. *)
Theorem no_value_from_compromised_target {G} (np_rand : G → Q * G)
  (e : Env G) (a : Action) :
  target a ∈ compromised_set (current_state e) →
  (∀ e' reward done,
     step np_rand e a = Ok (e', reward, done) → (reward == - cost a)%Q) ∧
  (∀ vec,
     _vectorize (service_map e) (perform_action (network e) a).2 = Ok vec →
     ∃ e' done, step np_rand e a = Ok (e', 0 - cost a, done)%Q).
Proof.
  intros Hin.
  assert (compromised (current_state e) (target a) = true) as Hc
    by (by apply bool_decide_eq_true).
  destruct (reachable (current_state e) (target a)) eqn:Hr.
  2: { rewrite step_unreachable by done. split.
       - intros ??? [= <- <- <-]. apply zero_minus_cost.
       - intros _ _. by eexists _, _. }
  destruct (_action_traffic_permitted e a) eqn:Hp.
  2: { rewrite step_not_permitted by done. split.
       - intros ??? [= <- <- <-]. apply zero_minus_cost.
       - intros _ _. by eexists _, _. }
  destruct (Qgt_bool (np_rand (np_random e)).1 (prob a)) eqn:Hd.
  { rewrite step_draw_too_high by done. split.
    - intros ??? [= <- <- <-]. apply zero_minus_cost.
    - intros _ _. by eexists _, _. }
  rewrite step_full_pipeline by done. simpl. rewrite Hc. split.
  - intros e' reward done Hstep.
    destruct (_vectorize _ _) as [vec|err]; simpl in Hstep; [|done].
    injection Hstep as _ <- _. apply zero_minus_cost.
  - intros vec ->. simpl. by eexists _, _.
Qed.

Lemma no_value_from_compromised_target_witness :
  (∀ e' reward done,
     step lcg_rand (after lcg_rand (demo_env 1) [exploit_10]) exploit_10
       = Ok (e', reward, done) →
     (reward == - cost exploit_10)%Q) ∧
  (∀ vec,
     _vectorize (service_map (after lcg_rand (demo_env 1) [exploit_10]))
       (perform_action (network (after lcg_rand (demo_env 1) [exploit_10]))
          exploit_10).2 = Ok vec →
     ∃ e' done,
       step lcg_rand (after lcg_rand (demo_env 1) [exploit_10]) exploit_10
         = Ok (e', 0 - cost exploit_10, done)%Q).
Proof.
  apply no_value_from_compromised_target.
  apply (bool_decide_unpack _). vm_compute. exact I.
Defined.

(** ** Runs depend on the generator through its draws only *)

Section Determinism.

Context {G1 G2 : Type} (rand1 : G1 → Q * G1) (rand2 : G2 → Q * G2).

(** [R] relates generator states that hand out the same draws for ever. *)
Context (R : G1 → G2 → Prop).
Hypothesis R_draw : ∀ g1 g2, R g1 g2 →
  (rand1 g1).1 = (rand2 g2).1 ∧ R (rand1 g1).2 (rand2 g2).2.

Lemma step_depends_on_draws_only e1 e2 a :
  same_but_generator R e1 e2 →
  same_outcome R (step rand1 e1 a) (step rand2 e2 a).
Proof.
  destruct e1 as [N1 n1 sm1 i1 c1 cs1 g1], e2 as [N2 n2 sm2 i2 c2 cs2 g2].
  intros (HN & Hn & Hsm & Hi & Hc & Hcs & HR). simpl in *. subst.
  unfold step, _action_traffic_permitted. simpl.
  destruct (reachable c2 (target a)); simpl; [|done].
  destruct (match a with Scan _ _ => true | Exploit _ _ _ _ => _ end);
    simpl; [|done].
  destruct (R_draw g1 g2 HR) as [Hdraw Hnext].
  destruct (rand1 g1) as [d1 g1'], (rand2 g2) as [d2 g2']. simpl in *.
  subst d2.
  destruct (Qgt_bool d1 (prob a)); [done|].
  destruct (perform_action N2 a) as [[success value] services].
  destruct (_vectorize sm2 services) as [vec|err]; simpl; [|done].
  unfold _update_state, _is_goal. simpl.
  destruct (is_scan a), success; done.
Qed.

Lemma run_depends_on_draws_only actions : ∀ e1 e2,
  same_but_generator R e1 e2 →
  same_outcome R (run rand1 e1 actions) (run rand2 e2 actions).
Proof.
  induction actions as [|a actions IH]; intros e1 e2 Hsame; simpl.
  - done.
  - pose proof (step_depends_on_draws_only e1 e2 a Hsame) as Hstep.
    destruct (step rand1 e1 a) as [[[e1' r1] d1]|x1],
             (step rand2 e2 a) as [[[e2' r2] d2]|x2];
      simpl in *; try done.
    destruct Hstep as (Hsame' & -> & ->).
    specialize (IH e1' e2' Hsame').
    destruct (run rand1 e1' actions) as [[[e1'' rs1] ds1]|y1],
             (run rand2 e2' actions) as [[[e2'' rs2] ds2]|y2];
      simpl in *; try done.
    destruct IH as (Hsame'' & -> & ->). done.
Qed.

End Determinism.

Lemma init_same_but_generator {G1 G2} (seed1 : nat → G1) (seed2 : nat → G2)
  (R : G1 → G2 → Prop) INTERNET N n keys seed g1 g2 :
  R (seed1 seed) (seed2 seed) →
  same_but_generator R
    (reset INTERNET (__init__ seed1 INTERNET N n keys seed g1))
    (reset INTERNET (__init__ seed2 INTERNET N n keys seed g2)).
Proof. intros HR. by repeat split. Qed.

(** C8. Two independent runs, each on a generator of its own: when the two
    generators hand out the same draws from the same seed, constructing the
    environment with a fixed seed (whatever state each generator was in
    before), resetting it and feeding it a fixed list of actions answers the
    same rewards and the same terminal flags and ends in the same knowledge
    state; if one run raises, so does the other.  The draws are all that a
    run takes from its generator. *)
Theorem same_seed_same_episode {G1 G2} (seed1 : nat → G1)
  (rand1 : G1 → Q * G1) (seed2 : nat → G2) (rand2 : G2 → Q * G2)
  (R : G1 → G2 → Prop) (INTERNET : nat) (N : Network) (n : nat)
  (keys : list nat) (seed : nat) (actions : list Action)
  (g1 : G1) (g2 : G2) :
  (∀ s, R (seed1 s) (seed2 s)) →
  (∀ x1 x2, R x1 x2 →
            (rand1 x1).1 = (rand2 x2).1 ∧ R (rand1 x1).2 (rand2 x2).2) →
  match
    run rand1 (reset INTERNET (__init__ seed1 INTERNET N n keys seed g1))
        actions,
    run rand2 (reset INTERNET (__init__ seed2 INTERNET N n keys seed g2))
        actions
  with
  | Ok (e1, rewards1, dones1), Ok (e2, rewards2, dones2) =>
      rewards1 = rewards2 ∧ dones1 = dones2 ∧ knowledge e1 = knowledge e2
  | Raise x1, Raise x2 => x1 = x2
  | _, _ => False
  end.
Proof.
  intros Hseed Hdraw.
  pose proof (run_depends_on_draws_only rand1 rand2 R Hdraw actions _ _
                (init_same_but_generator seed1 seed2 R INTERNET N n keys
                   seed g1 g2 (Hseed seed))) as Hrun.
  unfold same_outcome in Hrun.
  destruct (run rand1 _ actions) as [[[e1 rs1] ds1]|x1],
           (run rand2 _ actions) as [[[e2 rs2] ds2]|x2]; try done.
  destruct Hrun as ((_ & _ & _ & _ & Hst & Hcs & _) & -> & ->).
  unfold knowledge. by rewrite Hst, Hcs.
Qed.

Lemma same_seed_same_episode_witness :
  match
    run lcg_rand (reset 0 (__init__ lcg_seed 0 demo_network 2 demo_keys 1 5))
        [exploit_10_unlikely; scan_10; exploit_10; exploit_20],
    run lcg_rand (reset 0 (__init__ lcg_seed 0 demo_network 2 demo_keys 1 77))
        [exploit_10_unlikely; scan_10; exploit_10; exploit_20]
  with
  | Ok (e1, rewards1, dones1), Ok (e2, rewards2, dones2) =>
      rewards1 = rewards2 ∧ dones1 = dones2 ∧ knowledge e1 = knowledge e2
  | Raise x1, Raise x2 => x1 = x2
  | _, _ => False
  end.
Proof.
  apply (same_seed_same_episode lcg_seed lcg_rand lcg_seed lcg_rand eq).
  - reflexivity.
  - intros x1 x2 ->. split; reflexivity.
Defined.

(** ** Goal detection and the spread of reachability *)

Section Mutation.

Context {G : Type}.
Implicit Types (e : Env G) (a : Action) (st : State).

Lemma is_goal_spec e :
  _is_goal e = true ↔
  ∀ m, m ∈ get_sensitive_machines (network e) →
       m ∈ compromised_set (current_state e).
Proof.
  unfold _is_goal. rewrite forallb_forall. split.
  - intros H m Hm. apply list_elem_of_In, H in Hm.
    by apply bool_decide_eq_true in Hm.
  - intros H m Hm. apply bool_decide_eq_true, H. by apply list_elem_of_In.
Qed.

Lemma update_reachable_over (N : Network) (c : nat) (l : list address) :
  ∀ st,
    let st' :=
      foldl (λ st m,
               if reachable st m then st
               else if subnets_connected N c m.1
                    then set_reachable st m else st) st l in
    compromised_set st' = compromised_set st ∧
    service_belief st' = service_belief st ∧
    ∀ m, m ∈ reachable_set st' ↔
         m ∈ reachable_set st ∨
         (m ∈ l ∧ subnets_connected N c m.1 = true).
Proof.
  induction l as [|x l IH]; intros st; simpl.
  - repeat split; [by left | intros [H | [H _]]; [done | inversion H]].
  - match goal with |- context [foldl _ ?s l] => specialize (IH s) end.
    simpl in IH. destruct IH as (Hc & Hb & Hr).
    rewrite Hc, Hb. clear Hc Hb.
    split; [|split].
    + by destruct (reachable st x), (subnets_connected N c x.1).
    + by destruct (reachable st x), (subnets_connected N c x.1).
    + intros m. rewrite Hr. clear Hr. rewrite elem_of_cons.
      destruct (reachable st x) eqn:Ex.
      * apply bool_decide_eq_true in Ex. split; [tauto|].
        intros [H | [[-> | H] Hconn]]; tauto.
      * destruct (subnets_connected N c x.1) eqn:Econn; simpl.
        -- rewrite elem_of_union, elem_of_singleton. split.
           ++ intros [[-> | H] | [H Hconn]]; tauto.
           ++ intros [H | [[-> | H] Hconn]]; tauto.
        -- split; [tauto|].
           intros [H | [[-> | H] Hconn]]; [tauto | congruence | tauto].
Qed.

Lemma update_reachable_spec N st cm :
  compromised_set (_update_reachable N st cm) = compromised_set st ∧
  service_belief (_update_reachable N st cm) = service_belief st ∧
  ∀ m, m ∈ reachable_set (_update_reachable N st cm) ↔
       m ∈ reachable_set st ∨
       (m ∈ get_address_space N ∧ subnets_connected N cm.1 m.1 = true).
Proof. apply (update_reachable_over N cm.1 (get_address_space N) st). Qed.

(** The state after a scan that went through. *)
Lemma update_state_scan e tgt c success vec :
  _update_state e (Scan tgt c) success vec =
  with_current_state e (update_services (current_state e) tgt 0 vec).
Proof. done. Qed.

(** The state after an exploit that failed on the machine. *)
Lemma update_state_exploit_failed e tgt service c p vec :
  _update_state e (Exploit tgt service c p) false vec = e.
Proof. done. Qed.

(** The state after an exploit that succeeded. *)
Lemma update_state_exploit_succeeded e tgt service c p vec :
  let e' := _update_state e (Exploit tgt service c p) true vec in
  compromised_set (current_state e') =
    {[tgt]} ∪ compromised_set (current_state e) ∧
  compromised_subnets e' = {[tgt.1]} ∪ compromised_subnets e ∧
  service_belief (current_state e') =
    alter (write_beliefs 0 vec) tgt (service_belief (current_state e)) ∧
  ∀ m, m ∈ reachable_set (current_state e') ↔
       m ∈ reachable_set (current_state e) ∨
       (m ∈ get_address_space (network e) ∧
        subnets_connected (network e) tgt.1 m.1 = true).
Proof.
  unfold _update_state. simpl.
  match goal with |- context [_update_reachable ?N ?s ?c] =>
    destruct (update_reachable_spec N s c) as (Hc & Hb & Hr) end.
  rewrite Hc, Hb. simpl.
  rewrite update_services_compromised, update_services_belief.
  repeat split; try done.
  - intros H. apply Hr in H. simpl in H.
    by rewrite update_services_reachable in H.
  - intros H. apply Hr. simpl. by rewrite update_services_reachable.
Qed.

End Mutation.

(** C2. An exploit that passes the three gates and succeeds on the machine
    marks the target compromised, adds the target's subnet to the
    compromised subnets, and makes reachable exactly the machines of the
    network whose subnet is adjacent to the target's subnet: a machine is
    reachable after the step if and only if it was reachable before or its
    subnet is adjacent to the target's.  Nothing spreads any further in that
    step. *)
Theorem successful_exploit_spreads_one_hop {G} (np_rand : G → Q * G)
  (e : Env G) (tgt : address) (service : nat) (c p : Q) (vec : list Z) :
  gates_pass np_rand e (Exploit tgt service c p) →
  (perform_action (network e) (Exploit tgt service c p)).1.1 = true →
  _vectorize (service_map e)
    (perform_action (network e) (Exploit tgt service c p)).2 = Ok vec →
  ∃ e' reward done,
    step np_rand e (Exploit tgt service c p) = Ok (e', reward, done) ∧
    compromised_set (current_state e') =
      {[tgt]} ∪ compromised_set (current_state e) ∧
    compromised_subnets e' = {[tgt.1]} ∪ compromised_subnets e ∧
    ∀ m, m ∈ reachable_set (current_state e') ↔
         m ∈ reachable_set (current_state e) ∨
         (m ∈ get_address_space (network e) ∧
          subnets_connected (network e) tgt.1 m.1 = true).
Proof.
  intros (Hr & Hp & Hd) Hsuccess Hvec.
  rewrite step_full_pipeline by done. rewrite Hvec, Hsuccess. simpl.
  eexists _, _, _. split; [done|].
  match goal with |- context [_update_state ?e0 _ _ _] =>
    destruct (update_state_exploit_succeeded e0 tgt service c p vec)
      as (Hc & Hcs & _ & Hreach) end.
  split; [exact Hc|]. split; [exact Hcs|]. exact Hreach.
Qed.

Lemma successful_exploit_spreads_one_hop_witness :
  ∃ e' reward done,
    step lcg_rand (demo_env 1) (Exploit (1, 0) 0 1 1) = Ok (e', reward, done) ∧
    compromised_set (current_state e') =
      {[(1, 0)]} ∪ compromised_set (current_state (demo_env 1)) ∧
    compromised_subnets e' = {[1]} ∪ compromised_subnets (demo_env 1) ∧
    ∀ m, m ∈ reachable_set (current_state e') ↔
         m ∈ reachable_set (current_state (demo_env 1)) ∨
         (m ∈ get_address_space (network (demo_env 1)) ∧
          subnets_connected (network (demo_env 1)) 1 m.1 = true).
Proof.
  apply (successful_exploit_spreads_one_hop lcg_rand (demo_env 1) (1, 0) 0 1 1
           [1%Z; 0%Z]).
  - vm_compute. done.
  - reflexivity.
  - reflexivity.
Defined.

(** C3. A call of [step] that gets through the three gates answers the
    terminal flag [true] if and only if every sensitive machine is in the
    compromised set after the call's update.  In particular, when exactly
    two machines are sensitive, the flag is [false] while only the first is
    compromised and [true] on the step after which both are. *)
Theorem terminal_iff_all_sensitive_compromised {G} (np_rand : G → Q * G)
  (e : Env G) (a : Action) (vec : list Z) :
  gates_pass np_rand e a →
  _vectorize (service_map e) (perform_action (network e) a).2 = Ok vec →
  ∃ e' reward done,
    step np_rand e a = Ok (e', reward, done) ∧
    (done = true ↔
     ∀ m, m ∈ get_sensitive_machines (network e) →
          m ∈ compromised_set (current_state e')) ∧
    ∀ m1 m2, get_sensitive_machines (network e) = [m1; m2] →
      (m1 ∈ compromised_set (current_state e') →
       m2 ∉ compromised_set (current_state e') → done = false) ∧
      (m1 ∈ compromised_set (current_state e') →
       m2 ∈ compromised_set (current_state e') → done = true).
Proof.
  intros (Hr & Hp & Hd) Hvec.
  rewrite step_full_pipeline by done. rewrite Hvec. simpl.
  eexists _, _, _. split; [done|].
  match goal with |- context [_is_goal ?e0] =>
    set (e' := e0);
    assert (network e' = network e) as Hn
      by (subst e'; by rewrite (proj1 (proj2 (update_state_frame _ _ _ _))))
  end.
  rewrite <- Hn. split; [apply is_goal_spec|].
  intros m1 m2 Hsens. split.
  - intros _ H2. apply not_true_is_false. intros Hgoal.
    apply H2. apply (proj1 (is_goal_spec e') Hgoal).
    rewrite Hsens. set_solver.
  - intros H1 H2. apply is_goal_spec. intros m. rewrite Hsens.
    intros Hm. apply elem_of_cons in Hm as [-> | Hm]; [done|].
    by apply list_elem_of_singleton in Hm as ->.
Qed.

Lemma terminal_iff_all_sensitive_compromised_witness :
  ∃ e' reward done,
    step lcg_rand (after lcg_rand (demo_env 1) [exploit_10]) exploit_20
      = Ok (e', reward, done) ∧
    (done = true ↔
     ∀ m, m ∈ get_sensitive_machines
                (network (after lcg_rand (demo_env 1) [exploit_10])) →
          m ∈ compromised_set (current_state e')) ∧
    ∀ m1 m2,
      get_sensitive_machines
        (network (after lcg_rand (demo_env 1) [exploit_10])) = [m1; m2] →
      (m1 ∈ compromised_set (current_state e') →
       m2 ∉ compromised_set (current_state e') → done = false) ∧
      (m1 ∈ compromised_set (current_state e') →
       m2 ∈ compromised_set (current_state e') → done = true).
Proof.
  apply (terminal_iff_all_sensitive_compromised lcg_rand _ exploit_20
           [1%Z; 1%Z]).
  - vm_compute. done.
  - vm_compute. reflexivity.
Defined.

(** ** The service map and the service vector *)

Section Vectorize.

Lemma service_map_fold_absent (keys : list nat) : ∀ k (m0 : gmap nat nat) s,
  s ∉ keys →
  foldl (λ m p, <[p.2 := p.1]> m) m0 (enumerate_from k keys) !! s = m0 !! s.
Proof.
  induction keys as [|x keys IH]; intros k m0 s Hs; simpl; [done|].
  apply not_elem_of_cons in Hs as [Hne Hs].
  rewrite IH by done. by rewrite lookup_insert_ne.
Qed.

Lemma service_map_fold_present (keys : list nat) : ∀ k (m0 : gmap nat nat) i s,
  NoDup keys → keys !! i = Some s →
  foldl (λ m p, <[p.2 := p.1]> m) m0 (enumerate_from k keys) !! s
  = Some (k + i).
Proof.
  induction keys as [|x keys IH]; intros k m0 i s Hnd Hi; [done|].
  apply NoDup_cons in Hnd as [Hx Hnd]. simpl.
  destruct i as [|i]; simpl in Hi.
  - injection Hi as ->. rewrite service_map_fold_absent by done.
    rewrite lookup_insert_eq. f_equal. lia.
  - rewrite (IH (S k) _ i s) by done. f_equal. lia.
Qed.

Lemma build_service_map_lookup keys i s :
  NoDup keys → keys !! i = Some s → build_service_map keys !! s = Some i.
Proof.
  intros Hnd Hi. unfold build_service_map.
  by rewrite (service_map_fold_present keys 0 ∅ i s).
Qed.

Lemma build_service_map_inv keys i s :
  NoDup keys → build_service_map keys !! s = Some i → keys !! i = Some s.
Proof.
  intros Hnd Hs. destruct (decide (s ∈ keys)) as [Hin | Hout].
  - apply list_elem_of_lookup in Hin as [j Hj].
    rewrite (build_service_map_lookup keys j s) in Hs by done.
    by injection Hs as ->.
  - unfold build_service_map in Hs.
    by rewrite service_map_fold_absent in Hs.
Qed.

Lemma fill_vector_spec (sm : gmap nat nat) (items : list (nat * bool)) :
  ∀ vector,
    (∀ s v, (s, v) ∈ items → ∃ i, sm !! s = Some i ∧ i < length vector) →
    ∃ vec,
      fill_vector sm items vector = Ok vec ∧
      length vec = length vector ∧
      (∀ j, (∀ s v, (s, v) ∈ items → sm !! s ≠ Some j) →
            vec !! j = vector !! j) ∧
      (NoDup items.*1 →
       (∀ s s' i, sm !! s = Some i → sm !! s' = Some i → s = s') →
       ∀ s v i, (s, v) ∈ items → sm !! s = Some i →
                vec !! i = Some (Z.b2z v)).
Proof.
  induction items as [|[s v] items IH]; intros vector Hidx.
  - exists vector. split; [done|]. split; [done|]. split; [done|].
    intros _ _ s v i H. inversion H.
  - destruct (Hidx s v) as (i & Hi & Hlt); [left|].
    destruct (IH (<[i := Z.b2z v]> vector)) as (vec & Hfill & Hlen & Hkeep & Hset).
    { intros s' v' Hin. rewrite length_insert. apply (Hidx s' v'). by right. }
    exists vec. simpl. unfold _get_service_index. rewrite Hi. simpl.
    rewrite (proj2 (Nat.ltb_lt _ _) Hlt).
    rewrite length_insert in Hlen.
    split; [done|]. split; [done|]. split.
    + intros j Hj. rewrite Hkeep.
      * apply list_lookup_insert_ne. intros ->.
        apply (Hj s v); [by left | done].
      * intros s' v' Hin. apply (Hj s' v'). by right.
    + intros Hnd Hinj s' v' i' Hin Hi'.
      simpl in Hnd. apply NoDup_cons in Hnd as [Hs Hnd].
      apply elem_of_cons in Hin as [[= -> ->] | Hin].
      * assert (i' = i) as -> by congruence.
        rewrite Hkeep; [by apply list_lookup_insert_eq|].
        intros s'' v'' Hin Hs''. apply Hs.
        rewrite (Hinj s s'' i Hi Hs'').
        apply list_elem_of_fmap. by exists (s'', v'').
      * by apply (Hset Hnd Hinj s' v' i').
Qed.

Lemma full_dict_length N keys m services :
  NoDup keys → full_dict N keys m services →
  length services = length keys.
Proof.
  intros Hnd (Hnd' & Hsame & _).
  rewrite <- (length_fmap fst services).
  apply Permutation_length. by apply NoDup_Permutation.
Qed.

(** The vector of a full dictionary lists the ground truth in the order
    of the service map. *)
Lemma vectorize_full_dict N keys m services :
  NoDup keys → full_dict N keys m services →
  ∃ vec,
    _vectorize (build_service_map keys) services = Ok vec ∧
    length vec = length keys ∧
    ∀ i s, keys !! i = Some s →
           vec !! i = Some (Z.b2z (services_running N m s)).
Proof.
  intros Hnd Hfull.
  pose proof (full_dict_length N keys m services Hnd Hfull) as Hlen.
  destruct Hfull as (Hnd' & Hsame & Htruth).
  unfold _vectorize. destruct (length services =? 0) eqn:E.
  - apply Nat.eqb_eq in E. exists []. split; [done|].
    split; [simpl; lia|]. intros i s Hi.
    apply lookup_lt_Some in Hi. lia.
  - destruct (fill_vector_spec (build_service_map keys) services
                (replicate (length services) 0%Z))
      as (vec & Hfill & Hveclen & _ & Hset).
    { intros s v Hin.
      assert (s ∈ keys) as Hk.
      { apply Hsame, list_elem_of_fmap. by exists (s, v). }
      apply list_elem_of_lookup in Hk as [i Hi]. exists i.
      split; [by apply build_service_map_lookup|].
      rewrite length_replicate, Hlen. by eapply lookup_lt_Some. }
    exists vec. split; [done|].
    rewrite length_replicate in Hveclen. split; [lia|].
    intros i s Hi.
    assert (s ∈ services.*1) as Hs.
    { apply Hsame. by eapply list_elem_of_lookup_2. }
    apply list_elem_of_fmap in Hs as ([s' v] & Heq & Hin). simpl in Heq.
    subst s'. rewrite <- (Htruth s v Hin).
    apply (Hset Hnd') with (s := s); [|done|by apply build_service_map_lookup].
    intros s1 s2 j H1 H2.
    apply build_service_map_inv in H1, H2; [congruence|done|done].
Qed.

(** An empty answer goes through [_vectorize] as it is. *)
Lemma vectorize_empty sm : _vectorize sm [] = Ok [].
Proof. done. Qed.

End Vectorize.

(** ** Writing a service vector into the beliefs *)

Section Beliefs.

Lemma write_beliefs_length vs : ∀ s vec,
  length (write_beliefs s vs vec) = length vec.
Proof.
  induction vs as [|v vs IH]; intros s vec; simpl; [done|].
  by rewrite IH, length_insert.
Qed.

Lemma write_beliefs_below vs : ∀ s vec j,
  j < s → write_beliefs s vs vec !! j = vec !! j.
Proof.
  induction vs as [|v vs IH]; intros s vec j Hj; simpl; [done|].
  rewrite IH by lia. apply list_lookup_insert_ne. lia.
Qed.

Lemma write_beliefs_above vs : ∀ s vec j,
  s + length vs ≤ j → write_beliefs s vs vec !! j = vec !! j.
Proof.
  induction vs as [|v vs IH]; intros s vec j Hj; simpl in *; [done|].
  rewrite IH by lia. apply list_lookup_insert_ne. lia.
Qed.

Lemma write_beliefs_at vs : ∀ s vec k v,
  vs !! k = Some v → s + k < length vec →
  write_beliefs s vs vec !! (s + k) = Some (belief_of v).
Proof.
  induction vs as [|v0 vs IH]; intros s vec k v Hk Hlt; [done|].
  simpl. destruct k as [|k]; simpl in Hk.
  - injection Hk as ->. rewrite Nat.add_0_r in *.
    rewrite write_beliefs_below by lia.
    by apply list_lookup_insert_eq.
  - replace (s + S k) with (S s + k) by lia.
    apply IH; [done|]. rewrite length_insert. lia.
Qed.

(** A vector as long as the beliefs replaces them all. *)
Lemma write_beliefs_all vs vec :
  length vs = length vec → write_beliefs 0 vs vec = belief_of <$> vs.
Proof.
  intros Hlen. apply list_eq. intros j.
  rewrite list_lookup_fmap.
  destruct (vs !! j) as [v|] eqn:E; simpl.
  - apply (write_beliefs_at vs 0 vec j v E).
    apply lookup_lt_Some in E. simpl. lia.
  - apply lookup_ge_None in E. apply lookup_ge_None.
    rewrite write_beliefs_length. lia.
Qed.

Lemma belief_of_b2z (b : bool) :
  belief_of (Z.b2z b) = if b then Present else Absent.
Proof. by destruct b. Qed.

(** The beliefs written from the vector of a full dictionary are the
    ground truth, service by service. *)
Lemma beliefs_of_truth N keys m (vec : list Z) :
  length vec = length keys →
  (∀ i s, keys !! i = Some s →
          vec !! i = Some (Z.b2z (services_running N m s))) →
  belief_of <$> vec = true_belief N m <$> keys.
Proof.
  intros Hlen Hvec. apply list_eq. intros i.
  rewrite !list_lookup_fmap.
  destruct (keys !! i) as [s|] eqn:E; simpl.
  - rewrite (Hvec i s E). simpl. f_equal. apply belief_of_b2z.
  - apply lookup_ge_None in E.
    rewrite (proj2 (lookup_ge_None vec i)) by lia. done.
Qed.

End Beliefs.

(** ** The demonstration network and generator *)

Lemma spec_perform_action_truthful (N : Network) (value : address → Q)
  (keys : list nat) :
  NoDup keys →
  perform_action N = spec_perform_action (services_running N) value keys →
  truthful N keys.
Proof.
  intros Hnd Hpa.
  assert (∀ m, full_dict N keys m ((λ s, (s, services_running N m s)) <$> keys))
    as Hfull.
  { intros m. unfold full_dict.
    rewrite <- list_fmap_compose.
    replace (fst ∘ (λ s, (s, services_running N m s))) with (@id nat) by done.
    rewrite list_fmap_id. split; [done|]. split; [done|].
    intros s v Hin. apply list_elem_of_fmap in Hin as (s' & [= -> ->] & _).
    done. }
  split; [done| |]; intros a; rewrite Hpa; unfold spec_perform_action.
  - destruct a as [tgt c | tgt service c p]; simpl.
    + right. apply Hfull.
    + destruct (services_running N tgt service); simpl;
        [right; apply Hfull | by left].
  - destruct a as [tgt c | tgt service c p]; simpl.
    + intros _. apply Hfull.
    + destruct (services_running N tgt service); simpl.
      * intros _. apply Hfull.
      * by intros [? | ?].
Qed.

Lemma demo_network_truthful : truthful demo_network demo_keys.
Proof.
  apply (spec_perform_action_truthful demo_network demo_value demo_keys).
  - unfold demo_keys. apply NoDup_cons. split; [|apply NoDup_singleton].
    apply not_elem_of_cons. split; [done | apply not_elem_of_nil].
  - reflexivity.
Qed.

Lemma lcg_rand_range g : (0 <= (lcg_rand g).1 < 1)%Q.
Proof.
  unfold lcg_rand. simpl.
  pose proof (Nat.mod_upper_bound (21 * g + 7) 100) as Hlt.
  unfold Qle, Qlt. simpl. lia.
Qed.

(** ** Scans and successful exploits reveal every service *)

Lemma scan_passes_gates {G} (np_rand : G → Q * G) (e : Env G)
  (tgt : address) (c : Q) :
  (∀ g, 0 <= (np_rand g).1 < 1)%Q →
  tgt ∈ reachable_set (current_state e) →
  gates_pass np_rand e (Scan tgt c).
Proof.
  intros Hrange Hin.
  assert (reachable (current_state e) tgt = true) as Hr
    by (by apply bool_decide_eq_true).
  split; [done|]. split.
  - unfold _action_traffic_permitted. simpl. by rewrite Hr.
  - apply Qgt_bool_false. simpl. apply Qlt_le_weak, Hrange.
Qed.

(** C7. A scan of a reachable target always gets through the probabilistic
    gate (its probability is 1 and every draw lies in [0,1)), and after a
    scan, and likewise after an exploit that passes the gates and succeeds,
    the belief vector of the target is the ground truth of the network for
    every configured service, in the order of the service map.  The network
    is taken to answer truthfully and the target to have a belief vector
    with one entry per service. *)
Theorem scan_and_successful_exploit_reveal_all {G} (np_rand : G → Q * G)
  (e : Env G) (keys : list nat) (a : Action) (old : list belief) :
  (∀ g, 0 <= (np_rand g).1 < 1)%Q →
  truthful (network e) keys →
  service_map e = build_service_map keys →
  service_belief (current_state e) !! target a = Some old →
  length old = length keys →
  target a ∈ reachable_set (current_state e) →
  is_scan a = true ∨
  (gates_pass np_rand e a ∧ (perform_action (network e) a).1.1 = true) →
  gates_pass np_rand e a ∧
  ∃ e' reward done,
    step np_rand e a = Ok (e', reward, done) ∧
    service_belief (current_state e') !! target a =
      Some (true_belief (network e) (target a) <$> keys).
Proof.
  intros Hrange Htruth Hsm Hold Hlen Hin Hkind.
  assert (gates_pass np_rand e a) as Hpass.
  { destruct Hkind as [Hscan | [Hpass _]]; [|done].
    destruct a as [tgt c | ]; [|done]. by apply scan_passes_gates. }
  split; [done|].
  assert (full_dict (network e) keys (target a) (perform_action (network e) a).2)
    as Hfull.
  { apply (truthful_reveal _ _ Htruth).
    destruct Hkind as [Hscan | [_ Hsuccess]]; [by left | by right]. }
  destruct (vectorize_full_dict (network e) keys (target a) _
              (truthful_keys _ _ Htruth) Hfull) as (vec & Hvec & Hveclen & Hent).
  destruct Hpass as (Hr & Hp & Hd).
  rewrite step_full_pipeline by done. rewrite Hsm, Hvec.
  cbn [mbind result_bind].
  eexists _, _, _. split; [done|].
  assert (write_beliefs 0 vec old = true_belief (network e) (target a) <$> keys)
    as Hwrite.
  { rewrite write_beliefs_all by lia. by apply beliefs_of_truth. }
  destruct a as [tgt c | tgt service c p]; cbn [target] in *.
  - rewrite update_state_scan. simpl.
    rewrite update_services_belief, lookup_alter_eq, Hold. simpl.
    by rewrite Hwrite.
  - destruct Hkind as [? | [_ Hsuccess]]; [done|]. rewrite Hsuccess.
    match goal with |- context [_update_state ?e0 _ _ _] =>
      destruct (update_state_exploit_succeeded e0 tgt service c p vec)
        as (_ & _ & Hb & _) end.
    rewrite Hb. simpl. rewrite lookup_alter_eq, Hold. simpl.
    by rewrite Hwrite.
Qed.

Lemma scan_and_successful_exploit_reveal_all_witness :
  gates_pass lcg_rand (demo_env 1) scan_10 ∧
  ∃ e' reward done,
    step lcg_rand (demo_env 1) scan_10 = Ok (e', reward, done) ∧
    service_belief (current_state e') !! target scan_10 =
      Some (true_belief (network (demo_env 1)) (target scan_10) <$> demo_keys).
Proof.
  apply (scan_and_successful_exploit_reveal_all lcg_rand (demo_env 1)
           demo_keys scan_10 [Unknown; Unknown]).
  - apply lcg_rand_range.
  - apply demo_network_truthful.
  - reflexivity.
  - vm_compute. reflexivity.
  - reflexivity.
  - apply (bool_decide_unpack _). vm_compute. exact I.
  - left. reflexivity.
Defined.

(** ** Invariants of an episode *)

Section Invariants.

Context {G : Type} (np_seed : nat → G) (np_rand : G → Q * G).
Context (INTERNET : nat) (keys : list nat).
Implicit Types (e : Env G) (a : Action) (st : State).

Lemma initial_beliefs_lookup (l : list address) (n : nat) (m : address) :
  (list_to_map ((λ m, (m, replicate n Unknown)) <$> l)
     : gmap address (list belief)) !! m =
  if decide (m ∈ l) then Some (replicate n Unknown) else None.
Proof.
  induction l as [|x l IH].
  - rewrite fmap_nil, list_to_map_nil, lookup_empty.
    destruct (decide (m ∈ [])) as [Hin|]; [|done].
    by apply not_elem_of_nil in Hin.
  - rewrite fmap_cons, list_to_map_cons.
    destruct (decide (x = m)) as [->|Hne].
    + rewrite lookup_insert_eq.
      destruct (decide (m ∈ m :: l)) as [|Hout]; [done|].
      exfalso. apply Hout. by left.
    + rewrite lookup_insert_ne, IH by done.
      destruct (decide (m ∈ l)) as [Hin|Hout],
               (decide (m ∈ x :: l)) as [Hin'|Hout']; try done.
      * exfalso. apply Hout'. by right.
      * apply elem_of_cons in Hin' as [-> | Hin']; done.
Qed.

Lemma initial_state_ok N :
  state_ok N keys (generate_initial_state INTERNET N (length keys)).
Proof.
  split; simpl.
  - intros m Hm. apply elem_of_list_to_set in Hm.
    by apply list_elem_of_filter in Hm as [_ Hm].
  - intros m Hm. exists (replicate (length keys) Unknown).
    rewrite initial_beliefs_lookup, decide_True by done.
    by rewrite length_replicate.
  - intros m i b Hb Hknown. exfalso. apply Hknown.
    unfold belief_entry in Hb. simpl in Hb.
    rewrite initial_beliefs_lookup in Hb.
    destruct (decide _); simpl in Hb; [|done].
    by apply lookup_replicate in Hb as [-> _].
Qed.

Lemma init_env_ok N seed g :
  truthful N keys →
  env_ok keys (__init__ np_seed INTERNET N (length keys) keys seed g).
Proof.
  intros Htruth. split; simpl; [done | done | |]; apply initial_state_ok.
Qed.

Lemma reset_env_ok e : env_ok keys e → env_ok keys (reset INTERNET e).
Proof. intros [Hn Hsm Hc Hi]. by split. Qed.

Lemma with_np_random_ok e g : env_ok keys e → env_ok keys (with_np_random e g).
Proof. intros [Hn Hsm Hc Hi]. by split. Qed.

(** Under a truthful network the service vector is always there. *)
Lemma vectorize_total e a :
  env_ok keys e →
  ∃ vec, _vectorize (service_map e) (perform_action (network e) a).2 = Ok vec.
Proof.
  intros [Hn Hsm _ _]. rewrite Hsm.
  destruct (truthful_shape _ _ Hn a) as [-> | Hfull].
  - by exists [].
  - destruct (vectorize_full_dict _ keys _ _ (truthful_keys _ _ Hn) Hfull)
      as (vec & Hvec & _). by exists vec.
Qed.

Lemma step_total e a :
  env_ok keys e → ∃ e' reward done, step np_rand e a = Ok (e', reward, done).
Proof.
  intros Hok.
  destruct (reachable (current_state e) (target a)) eqn:Hr.
  2: { rewrite step_unreachable by done. by eexists _, _, _. }
  destruct (_action_traffic_permitted e a) eqn:Hp.
  2: { rewrite step_not_permitted by done. by eexists _, _, _. }
  destruct (Qgt_bool (np_rand (np_random e)).1 (prob a)) eqn:Hd.
  { rewrite step_draw_too_high by done. by eexists _, _, _. }
  rewrite step_full_pipeline by done.
  destruct (vectorize_total e a Hok) as [vec ->]. by eexists _, _, _.
Qed.

(** What a call of [step] does to the knowledge state: the static fields
    stay, the two sets grow inside the address space, and the beliefs are
    either untouched or hold the ground truth for the target. *)
Lemma step_effect e a e' reward done :
  env_ok keys e →
  step np_rand e a = Ok (e', reward, done) →
  network e' = network e ∧ service_map e' = service_map e ∧
  init_state e' = init_state e ∧
  compromised_set (current_state e) ⊆ compromised_set (current_state e') ∧
  reachable_set (current_state e) ⊆ reachable_set (current_state e') ∧
  (∀ m, m ∈ reachable_set (current_state e') →
        m ∈ get_address_space (network e)) ∧
  (service_belief (current_state e') = service_belief (current_state e) ∨
   service_belief (current_state e') =
     <[target a := true_belief (network e) (target a) <$> keys]>
       (service_belief (current_state e))).
Proof.
  intros Hok Hstep.
  pose proof Hok as [Hn Hsm [Hreach Hvecs Hsound] _].
  assert (∀ e0, knowledge e0 = knowledge e → network e0 = network e →
                service_map e0 = service_map e →
                init_state e0 = init_state e →
                Ok (e0, (0 - cost a)%Q, false) = Ok (e', reward, done) →
                network e' = network e ∧ service_map e' = service_map e ∧
                init_state e' = init_state e ∧
                compromised_set (current_state e)
                  ⊆ compromised_set (current_state e') ∧
                reachable_set (current_state e)
                  ⊆ reachable_set (current_state e') ∧
                (∀ m, m ∈ reachable_set (current_state e') →
                      m ∈ get_address_space (network e)) ∧
                (service_belief (current_state e')
                   = service_belief (current_state e) ∨
                 service_belief (current_state e') =
                   <[target a := true_belief (network e) (target a) <$> keys]>
                     (service_belief (current_state e)))) as Hearly.
  { intros e0 Hk H1 H2 H3 [= <- _ _]. injection Hk as -> _.
    repeat split; try done. by left. }
  destruct (reachable (current_state e) (target a)) eqn:Hr.
  2: { rewrite step_unreachable in Hstep by done. by apply (Hearly e). }
  destruct (_action_traffic_permitted e a) eqn:Hp.
  2: { rewrite step_not_permitted in Hstep by done. by apply (Hearly e). }
  destruct (Qgt_bool (np_rand (np_random e)).1 (prob a)) eqn:Hd.
  { rewrite step_draw_too_high in Hstep by done.
    by apply (Hearly (with_np_random e (np_rand (np_random e)).2)). }
  clear Hearly.
  rewrite step_full_pipeline in Hstep by done.
  cbn zeta in Hstep.
  destruct (_vectorize _ _) as [vec|err] eqn:Hvec;
    cbn [mbind result_bind] in Hstep; [|done].
  injection Hstep as <- _ _.
  destruct (update_state_frame (with_np_random e (np_rand (np_random e)).2)
              a (perform_action (network e) a).1.1 vec)
    as (_ & HN & HSM & _ & HI).
  rewrite HN, HSM, HI. simpl.
  split; [done|]. split; [done|]. split; [done|].
  assert (target a ∈ get_address_space (network e)) as Haddr.
  { apply Hreach. by apply bool_decide_eq_true in Hr. }
  destruct (Hvecs _ Haddr) as (old & Hold & Hlen).
  (* the beliefs a revealing action writes *)
  assert (is_scan a = true ∨ (perform_action (network e) a).1.1 = true →
          alter (write_beliefs 0 vec) (target a)
                (service_belief (current_state e)) =
          <[target a := true_belief (network e) (target a) <$> keys]>
            (service_belief (current_state e))) as Hwrite.
  { intros Hkind.
    pose proof (truthful_reveal _ _ Hn a Hkind) as Hfull.
    destruct (vectorize_full_dict _ keys _ _ (truthful_keys _ _ Hn) Hfull)
      as (vec' & Hvec' & Hveclen & Hent).
    rewrite Hsm, Hvec' in Hvec. injection Hvec as ->.
    apply map_eq. intros m. destruct (decide (target a = m)) as [<-|Hne].
    - rewrite lookup_alter_eq, lookup_insert_eq, Hold. simpl. f_equal.
      rewrite write_beliefs_all by lia. by apply beliefs_of_truth.
    - by rewrite lookup_alter_ne, lookup_insert_ne. }
  destruct a as [tgt c | tgt service c p]; cbn [target] in *.
  - rewrite update_state_scan. simpl.
    rewrite update_services_compromised, update_services_reachable,
      update_services_belief.
    repeat split; try done. right. apply Hwrite. by left.
  - destruct (perform_action (network e) (Exploit tgt service c p)).1.1
      eqn:Hsuccess.
    + match goal with |- context [_update_state ?e0 _ _ _] =>
        destruct (update_state_exploit_succeeded e0 tgt service c p vec)
          as (Hc & _ & Hb & Hre) end.
      rewrite Hc, Hb. simpl in *.
      split; [apply union_subseteq_r|]. split; [|split].
      * intros m Hm. apply Hre. by left.
      * intros m Hm. apply Hre in Hm as [Hm | [Hm _]]; [by apply Hreach|done].
      * right. apply Hwrite. by right.
    + rewrite update_state_exploit_failed. simpl.
      repeat split; try done. by left.
Qed.

Lemma step_env_ok e a e' reward done :
  env_ok keys e →
  step np_rand e a = Ok (e', reward, done) →
  env_ok keys e'.
Proof.
  intros Hok Hstep.
  destruct (step_effect e a e' reward done Hok Hstep)
    as (HN & HSM & HI & _ & _ & Hreach & Hbel).
  destruct Hok as [Hn Hsm [_ Hvecs Hsound] Hinit].
  split; rewrite ?HN, ?HSM, ?HI; try done.
  split; [done| |].
  - intros m Hm. destruct Hbel as [-> | ->]; [by apply Hvecs|].
    destruct (decide (target a = m)) as [<-|Hne].
    + rewrite lookup_insert_eq. eexists. split; [done|].
      by rewrite length_fmap.
    + rewrite lookup_insert_ne by done. by apply Hvecs.
  - intros m i b Hb Hknown. unfold belief_entry in *.
    destruct Hbel as [Heq | Heq]; rewrite Heq in Hb; [by apply Hsound|].
    destruct (decide (target a = m)) as [<-|Hne].
    + rewrite lookup_insert_eq in Hb. simpl in Hb.
      rewrite list_lookup_fmap in Hb.
      destruct (keys !! i) as [s|]; simpl in Hb; [|done].
      injection Hb as <-. by exists s.
    + rewrite lookup_insert_ne in Hb by done. by apply Hsound.
Qed.

Lemma step_knows_no_less e a e' reward done :
  env_ok keys e →
  step np_rand e a = Ok (e', reward, done) →
  knows_no_less e e'.
Proof.
  intros Hok Hstep.
  destruct (step_effect e a e' reward done Hok Hstep)
    as (_ & _ & _ & Hc & Hr & _ & Hbel).
  destruct Hok as [_ _ [_ _ Hsound] _].
  split; [done|]. split; [done|].
  intros m i b Hknown Hb.
  destruct (Hsound m i b Hb Hknown) as (s & Hs & ->).
  unfold belief_entry in *.
  destruct Hbel as [-> | ->]; [done|].
  destruct (decide (target a = m)) as [<-|Hne].
  - rewrite lookup_insert_eq. simpl.
    by rewrite list_lookup_fmap, Hs.
  - by rewrite lookup_insert_ne.
Qed.

Lemma knows_no_less_refl e : knows_no_less e e.
Proof. by repeat split. Qed.

Lemma knows_no_less_trans e1 e2 e3 :
  knows_no_less e1 e2 → knows_no_less e2 e3 → knows_no_less e1 e3.
Proof.
  intros (Hc & Hr & Hb) (Hc' & Hr' & Hb').
  split; [by etrans|]. split; [by etrans|].
  intros m i b Hknown H. by apply Hb', Hb.
Qed.

Lemma run_knows_no_less actions : ∀ e,
  env_ok keys e →
  ∃ e' rewards dones,
    run np_rand e actions = Ok (e', rewards, dones) ∧
    env_ok keys e' ∧ knows_no_less e e'.
Proof.
  induction actions as [|a actions IH]; intros e Hok; simpl.
  - eexists _, _, _. split; [done|]. split; [done|].
    apply knows_no_less_refl.
  - destruct (step_total e a Hok) as (e1 & r & d & Hstep).
    rewrite Hstep. cbn [mbind result_bind].
    pose proof (step_env_ok _ _ _ _ _ Hok Hstep) as Hok1.
    destruct (IH e1 Hok1) as (e2 & rs & ds & Hrun & Hok2 & Hmono).
    rewrite Hrun. cbn [mbind result_bind].
    eexists _, _, _. split; [done|]. split; [done|].
    eapply knows_no_less_trans; [|done].
    by eapply step_knows_no_less.
Qed.

Lemma episode_env_ok e :
  episode_state np_seed np_rand INTERNET keys e → env_ok keys e.
Proof.
  induction 1 as [N seed g Htruth | e a e' r d _ IH Hstep | e _ IH].
  - by apply init_env_ok.
  - by eapply step_env_ok.
  - by apply reset_env_ok.
Qed.

End Invariants.

(** C4. In an episode, whatever actions are fed to [step], the compromised
    set and the reachable set only grow, and a belief that is present or
    absent stays exactly what it is: it neither goes back to unknown nor
    flips.  The environment is one that a program can hold (constructed over
    a truthful network, then stepped and reset at will), and the run from it
    always answers. *)
Theorem knowledge_never_regresses {G} (np_seed : nat → G)
  (np_rand : G → Q * G) (INTERNET : nat) (keys : list nat) (e : Env G)
  (actions : list Action) :
  episode_state np_seed np_rand INTERNET keys e →
  ∃ e' rewards dones,
    run np_rand e actions = Ok (e', rewards, dones) ∧
    compromised_set (current_state e) ⊆ compromised_set (current_state e') ∧
    reachable_set (current_state e) ⊆ reachable_set (current_state e') ∧
    ∀ m i b, b ≠ Unknown →
      belief_entry (current_state e) m i = Some b →
      belief_entry (current_state e') m i = Some b.
Proof.
  intros Hep.
  pose proof (episode_env_ok np_seed np_rand INTERNET keys e Hep) as Hok.
  destruct (run_knows_no_less np_rand keys actions e Hok)
    as (e' & rs & ds & Hrun & _ & Hmono).
  by exists e', rs, ds.
Qed.

Lemma knowledge_never_regresses_witness :
  ∃ e' rewards dones,
    run lcg_rand (after lcg_rand (demo_env 1) [scan_10])
        [exploit_10; scan_10; exploit_20; scan_30]
      = Ok (e', rewards, dones) ∧
    compromised_set (current_state (after lcg_rand (demo_env 1) [scan_10]))
      ⊆ compromised_set (current_state e') ∧
    reachable_set (current_state (after lcg_rand (demo_env 1) [scan_10]))
      ⊆ reachable_set (current_state e') ∧
    ∀ m i b, b ≠ Unknown →
      belief_entry (current_state (after lcg_rand (demo_env 1) [scan_10])) m i
        = Some b →
      belief_entry (current_state e') m i = Some b.
Proof.
  apply (knowledge_never_regresses lcg_seed lcg_rand 0 demo_keys).
  apply (episode_step lcg_seed lcg_rand 0 demo_keys (demo_env 1) scan_10 _
           (-1) false).
  - apply (episode_init lcg_seed lcg_rand 0 demo_keys demo_network 1 0).
    apply demo_network_truthful.
  - vm_compute. reflexivity.
Defined.

(** ** Resetting does not reseed *)

Lemma reset_keeps_generator {G} (INTERNET : nat) (e : Env G) :
  np_random (reset INTERNET e) = np_random e.
Proof. done. Qed.

(** On one and the same environment a second episode goes on with the
    generator where the first left it: the unlikely exploit that fails in
    the first episode succeeds in the second. *)
Example second_episode_draws_on :
  rewards_of (run lcg_rand (reset 0 (demo_env 6)) [exploit_10_unlikely])
    = [(-1)%Q] ∧
  rewards_of
    (run lcg_rand
       (reset 0 (after lcg_rand (reset 0 (demo_env 6)) [exploit_10_unlikely]))
       [exploit_10_unlikely])
    = [9%Q].
Proof. split; vm_compute; reflexivity. Qed.

(** * Further properties of the engine *)

(** ** The two ways a call of [step] can go *)

Section StepCases.

Context {G : Type} (np_rand : G → Q * G).
Implicit Types (e : Env G) (a : Action).

Lemma step_inv e a e' reward done :
  step np_rand e a = Ok (e', reward, done) →
  (¬ gates_pass np_rand e a ∧ knowledge e' = knowledge e ∧
   network e' = network e ∧ service_map e' = service_map e ∧
   init_state e' = init_state e ∧
   reward = (0 - cost a)%Q ∧ done = false) ∨
  (gates_pass np_rand e a ∧
   ∃ vec,
     _vectorize (service_map e) (perform_action (network e) a).2 = Ok vec ∧
     e' = _update_state (with_np_random e (np_rand (np_random e)).2) a
            (perform_action (network e) a).1.1 vec ∧
     reward = ((if compromised (current_state e) (target a)
                then 0 else (perform_action (network e) a).1.2) - cost a)%Q ∧
     done = _is_goal e').
Proof.
  intros Hstep. unfold gates_pass.
  destruct (reachable (current_state e) (target a)) eqn:Hr.
  2: { rewrite step_unreachable in Hstep by done.
       injection Hstep as <- <- <-. left. repeat split; try done.
       by intros (? & _). }
  destruct (_action_traffic_permitted e a) eqn:Hp.
  2: { rewrite step_not_permitted in Hstep by done.
       injection Hstep as <- <- <-. left. repeat split; try done.
       by intros (_ & ? & _). }
  destruct (Qgt_bool (np_rand (np_random e)).1 (prob a)) eqn:Hd.
  { rewrite step_draw_too_high in Hstep by done.
    injection Hstep as <- <- <-. left. repeat split; try done.
    by intros (_ & _ & ?). }
  rewrite step_full_pipeline in Hstep by done. cbn zeta in Hstep.
  destruct (_vectorize _ _) as [vec|err] eqn:Hvec;
    cbn [mbind result_bind] in Hstep; [|done].
  injection Hstep as <- <- <-. right. split; [done|]. by exists vec.
Qed.

Lemma step_static e a e' reward done :
  step np_rand e a = Ok (e', reward, done) →
  network e' = network e ∧ service_map e' = service_map e ∧
  init_state e' = init_state e ∧ num_services e' = num_services e.
Proof.
  intros Hstep.
  destruct (reachable (current_state e) (target a)) eqn:Hr.
  2: { rewrite step_unreachable in Hstep by done. by injection Hstep as <- _ _. }
  destruct (_action_traffic_permitted e a) eqn:Hp.
  2: { rewrite step_not_permitted in Hstep by done.
       by injection Hstep as <- _ _. }
  destruct (Qgt_bool (np_rand (np_random e)).1 (prob a)) eqn:Hd.
  { rewrite step_draw_too_high in Hstep by done. by injection Hstep as <- _ _. }
  rewrite step_full_pipeline in Hstep by done. cbn zeta in Hstep.
  destruct (_vectorize _ _) as [vec|err] eqn:Hvec;
    cbn [mbind result_bind] in Hstep; [|done].
  injection Hstep as <- _ _.
  destruct (update_state_frame (with_np_random e (np_rand (np_random e)).2)
              a (perform_action (network e) a).1.1 vec)
    as (_ & HN & HSM & Hnum & HI).
  by rewrite HN, HSM, HI, Hnum.
Qed.

(** Unless the action is an exploit that succeeded, [_update_state] leaves
    the three sets alone. *)
Lemma update_state_sets_kept e a success vec :
  is_scan a = true ∨ success = false →
  knowledge_sets (_update_state e a success vec) = knowledge_sets e.
Proof.
  intros Hkind. unfold knowledge_sets.
  destruct a as [tgt c | tgt service c p].
  - rewrite update_state_scan. simpl.
    by rewrite update_services_compromised, update_services_reachable.
  - destruct Hkind as [? | ->]; [done|].
    by rewrite update_state_exploit_failed.
Qed.

(** The beliefs after [_update_state]. *)
Lemma update_state_beliefs e a success vec :
  service_belief (current_state (_update_state e a success vec)) =
  if is_scan a || success
  then alter (write_beliefs 0 vec) (target a) (service_belief (current_state e))
  else service_belief (current_state e).
Proof.
  destruct a as [tgt c | tgt service c p].
  - rewrite update_state_scan. simpl. apply update_services_belief.
  - destruct success.
    + by destruct (update_state_exploit_succeeded e tgt service c p vec)
        as (_ & _ & Hb & _).
    + by rewrite update_state_exploit_failed.
Qed.

(** Whatever the call, the two sets and the cache only grow. *)
Lemma step_sets_grow e a e' reward done :
  step np_rand e a = Ok (e', reward, done) →
  compromised_set (current_state e) ⊆ compromised_set (current_state e') ∧
  reachable_set (current_state e) ⊆ reachable_set (current_state e') ∧
  compromised_subnets e ⊆ compromised_subnets e'.
Proof.
  intros Hstep.
  destruct (step_inv e a e' reward done Hstep)
    as [(_ & Hk & _) | (_ & vec & _ & -> & _ & _)].
  - unfold knowledge in Hk. injection Hk as -> ->. done.
  - destruct (decide (is_scan a = true ∨ (perform_action (network e) a).1.1 = false))
      as [Hkind | Hkind].
    + pose proof (update_state_sets_kept
                    (with_np_random e (np_rand (np_random e)).2) a _ vec Hkind)
        as Hsets.
      unfold knowledge_sets in Hsets. simpl in Hsets.
      injection Hsets as -> -> ->. done.
    + destruct a as [tgt c | tgt service c p]; [by destruct Hkind; left|].
      destruct (perform_action (network e) (Exploit tgt service c p)).1.1;
        [|by destruct Hkind; right].
      match goal with |- context [_update_state ?e0 _ _ _] =>
        destruct (update_state_exploit_succeeded e0 tgt service c p vec)
          as (Hc & Hcs & _ & Hre) end.
      rewrite Hc, Hcs. simpl.
      split; [apply union_subseteq_r|]. split; [|apply union_subseteq_r].
      intros m Hm. apply Hre. by left.
Qed.

End StepCases.

(** ** Runs, step by step *)

Section Runs.

Context {G : Type} (np_rand : G → Q * G).
Implicit Types (e : Env G) (a : Action).

Lemma run_cons_inv e a actions e' rewards dones :
  run np_rand e (a :: actions) = Ok (e', rewards, dones) →
  ∃ e1 reward done rewards' dones',
    step np_rand e a = Ok (e1, reward, done) ∧
    run np_rand e1 actions = Ok (e', rewards', dones') ∧
    rewards = reward :: rewards' ∧ dones = done :: dones'.
Proof.
  intros Hrun. cbn [run] in Hrun.
  destruct (step np_rand e a) as [[[e1 r] d]|x] eqn:Hstep;
    cbn [mbind result_bind] in Hrun; [|done].
  destruct (run np_rand e1 actions) as [[[e2 rs] ds]|x] eqn:Hrest;
    cbn [mbind result_bind] in Hrun; [|done].
  injection Hrun as <- <- <-. by exists e1, r, d, rs, ds.
Qed.

(** A relation that holds across every call of [step] and is reflexive and
    transitive holds across every run. *)
Lemma run_rel (R : Env G → Env G → Prop) :
  (∀ e, R e e) →
  (∀ e1 e2 e3, R e1 e2 → R e2 e3 → R e1 e3) →
  (∀ e a e' reward done, step np_rand e a = Ok (e', reward, done) → R e e') →
  ∀ actions e e' rewards dones,
    run np_rand e actions = Ok (e', rewards, dones) → R e e'.
Proof.
  intros Hrefl Htrans Hstep.
  induction actions as [|a actions IH]; intros e e' rs ds Hrun.
  - injection Hrun as <- _ _. apply Hrefl.
  - apply run_cons_inv in Hrun
      as (e1 & r & d & rs' & ds' & Hs & Hrun & _ & _).
    eapply Htrans; [by eapply Hstep | by eapply IH].
Qed.

(** A property that every call of [step] keeps is kept by every run. *)
Lemma run_invariant (P : Env G → Prop) :
  (∀ e a e' reward done,
     P e → step np_rand e a = Ok (e', reward, done) → P e') →
  ∀ actions e e' rewards dones,
    P e → run np_rand e actions = Ok (e', rewards, dones) → P e'.
Proof.
  intros Hstep.
  induction actions as [|a actions IH]; intros e e' rs ds HP Hrun.
  - by injection Hrun as <- _ _.
  - apply run_cons_inv in Hrun
      as (e1 & r & d & rs' & ds' & Hs & Hrun & _ & _).
    eapply IH; [|done]. by eapply Hstep.
Qed.

Lemma run_static actions e e' rewards dones :
  run np_rand e actions = Ok (e', rewards, dones) →
  network e' = network e ∧ service_map e' = service_map e ∧
  init_state e' = init_state e ∧ num_services e' = num_services e.
Proof.
  apply (run_rel (λ e e', network e' = network e ∧
                          service_map e' = service_map e ∧
                          init_state e' = init_state e ∧
                          num_services e' = num_services e)).
  - done.
  - intros e1 e2 e3 (-> & -> & -> & ->) (-> & -> & -> & ->). done.
  - intros e0 a e1 r d. apply step_static.
Qed.

Lemma run_sets_grow actions e e' rewards dones :
  run np_rand e actions = Ok (e', rewards, dones) →
  compromised_set (current_state e) ⊆ compromised_set (current_state e') ∧
  reachable_set (current_state e) ⊆ reachable_set (current_state e') ∧
  compromised_subnets e ⊆ compromised_subnets e'.
Proof.
  apply (run_rel (λ e e',
    compromised_set (current_state e) ⊆ compromised_set (current_state e') ∧
    reachable_set (current_state e) ⊆ reachable_set (current_state e') ∧
    compromised_subnets e ⊆ compromised_subnets e')).
  - done.
  - intros e1 e2 e3 (H1 & H2 & H3) (H1' & H2' & H3').
    split; [by etrans|]. split; by etrans.
  - intros e0 a e1 r d. apply step_sets_grow.
Qed.

Lemma is_goal_false e :
  _is_goal e = false →
  ∃ m, m ∈ get_sensitive_machines (network e) ∧
       m ∉ compromised_set (current_state e).
Proof.
  unfold _is_goal.
  induction (get_sensitive_machines (network e)) as [|x l IH]; simpl; [done|].
  destruct (compromised (current_state e) x) eqn:Hx; simpl.
  - intros H. destruct (IH H) as (m & Hm & Hc). exists m. split; [by right|done].
  - intros _. exists x. split; [by left|].
    by apply bool_decide_eq_false in Hx.
Qed.

End Runs.

(** ** What a call never does *)

(** X1. The compromised set, the reachable set and the cache of compromised
    subnets change only in a call whose action is an exploit that got through
    the three gates and succeeded on the machine: no scan, no rejected action
    and no failed exploit ever touches them. *)
Theorem sets_change_only_by_successful_exploit {G} (np_rand : G → Q * G)
  (e e' : Env G) (a : Action) (reward : Q) (done : bool) :
  step np_rand e a = Ok (e', reward, done) →
  knowledge_sets e' ≠ knowledge_sets e →
  is_scan a = false ∧ gates_pass np_rand e a ∧
  (perform_action (network e) a).1.1 = true.
Proof.
  intros Hstep Hchanged.
  destruct (step_inv np_rand e a e' reward done Hstep)
    as [(_ & Hk & _) | (Hpass & vec & _ & -> & _ & _)].
  - exfalso. apply Hchanged. unfold knowledge in Hk. unfold knowledge_sets.
    by injection Hk as -> ->.
  - destruct (is_scan a) eqn:Hscan.
    + exfalso. apply Hchanged.
      rewrite update_state_sets_kept by (left; done). done.
    + destruct (perform_action (network e) a).1.1 eqn:Hsuccess; [done|].
      exfalso. apply Hchanged.
      rewrite update_state_sets_kept by (right; done). done.
Qed.

Lemma sets_change_only_by_successful_exploit_witness :
  is_scan exploit_10 = false ∧ gates_pass lcg_rand (demo_env 1) exploit_10 ∧
  (perform_action (network (demo_env 1)) exploit_10).1.1 = true.
Proof.
  apply (sets_change_only_by_successful_exploit lcg_rand (demo_env 1)
           (after lcg_rand (demo_env 1) [exploit_10]) exploit_10 9 false).
  - vm_compute. reflexivity.
  - apply (bool_decide_unpack _). vm_compute. exact I.
Defined.

(** X2. A call of [step] never touches the beliefs about a machine other
    than its target. *)
Theorem step_touches_only_target_beliefs {G} (np_rand : G → Q * G)
  (e e' : Env G) (a : Action) (reward : Q) (done : bool) (m : address) :
  step np_rand e a = Ok (e', reward, done) →
  m ≠ target a →
  service_belief (current_state e') !! m =
  service_belief (current_state e) !! m.
Proof.
  intros Hstep Hne.
  destruct (step_inv np_rand e a e' reward done Hstep)
    as [(_ & Hk & _) | (_ & vec & _ & -> & _ & _)].
  - unfold knowledge in Hk. injection Hk as -> _. done.
  - rewrite update_state_beliefs. simpl.
    destruct (is_scan a || (perform_action (network e) a).1.1); [|done].
    by rewrite lookup_alter_ne.
Qed.

Lemma step_touches_only_target_beliefs_witness :
  service_belief (current_state (after lcg_rand (demo_env 1) [scan_10]))
    !! (2, 0) =
  service_belief (current_state (demo_env 1)) !! (2, 0).
Proof.
  apply (step_touches_only_target_beliefs lcg_rand (demo_env 1) _ scan_10
           (-1) false).
  - vm_compute. reflexivity.
  - discriminate.
Defined.

(** X3. A reward other than [-cost] is only ever answered by a call that got
    through the three gates against a target that was not compromised, and
    it is then the value handed back by the network minus the cost. *)
Theorem reward_above_cost_needs_fresh_target {G} (np_rand : G → Q * G)
  (e e' : Env G) (a : Action) (reward : Q) (done : bool) :
  step np_rand e a = Ok (e', reward, done) →
  ¬ (reward == - cost a)%Q →
  gates_pass np_rand e a ∧
  (target a ∉ compromised_set (current_state e)) ∧
  reward = ((perform_action (network e) a).1.2 - cost a)%Q.
Proof.
  intros Hstep Hreward.
  destruct (step_inv np_rand e a e' reward done Hstep)
    as [(_ & _ & _ & _ & _ & -> & _) | (Hpass & vec & _ & _ & -> & _)].
  - exfalso. apply Hreward, zero_minus_cost.
  - destruct (compromised (current_state e) (target a)) eqn:Hc.
    + exfalso. apply Hreward, zero_minus_cost.
    + split; [done|]. split; [|done]. by apply bool_decide_eq_false in Hc.
Qed.

Lemma reward_above_cost_needs_fresh_target_witness :
  gates_pass lcg_rand (demo_env 1) exploit_10 ∧
  (target exploit_10 ∉ compromised_set (current_state (demo_env 1))) ∧
  (9 : Q) = ((perform_action (network (demo_env 1)) exploit_10).1.2
             - cost exploit_10)%Q.
Proof.
  apply (reward_above_cost_needs_fresh_target lcg_rand (demo_env 1)
           (after lcg_rand (demo_env 1) [exploit_10]) exploit_10 9 false).
  - vm_compute. reflexivity.
  - vm_compute. discriminate.
Defined.

(** ** The goal *)

(** X4. Once every sensitive machine is compromised the goal stays reached:
    it still holds after any further call of [step], and every further call
    that gets through the three gates, be it a scan or a failed exploit,
    answers the terminal flag [true]. *)
Theorem goal_is_sticky {G} (np_rand : G → Q * G) (e e' : Env G) (a : Action)
  (reward : Q) (done : bool) :
  _is_goal e = true →
  step np_rand e a = Ok (e', reward, done) →
  _is_goal e' = true ∧ (gates_pass np_rand e a → done = true).
Proof.
  intros Hgoal Hstep.
  assert (_is_goal e' = true) as Hgoal'.
  { apply is_goal_spec. intros m Hm.
    destruct (step_static np_rand e a e' reward done Hstep) as (HN & _).
    destruct (step_sets_grow np_rand e a e' reward done Hstep) as (Hc & _).
    rewrite HN in Hm. apply Hc. by apply (proj1 (is_goal_spec e) Hgoal). }
  split; [done|]. intros Hpass.
  destruct (step_inv np_rand e a e' reward done Hstep)
    as [(Hno & _) | (_ & vec & _ & _ & _ & ->)]; [done|].
  done.
Qed.

Lemma goal_is_sticky_witness :
  _is_goal (after lcg_rand (demo_env 1) [exploit_10; exploit_20; scan_10])
    = true ∧
  (gates_pass lcg_rand (after lcg_rand (demo_env 1) [exploit_10; exploit_20])
     scan_10 → true = true).
Proof.
  apply (goal_is_sticky lcg_rand
           (after lcg_rand (demo_env 1) [exploit_10; exploit_20])
           (after lcg_rand (demo_env 1) [exploit_10; exploit_20; scan_10])
           scan_10 (-1) true).
  - vm_compute. reflexivity.
  - vm_compute. reflexivity.
Defined.

(** X5. The call that reaches the goal is a successful exploit of a sensitive
    machine that was not compromised before: when the goal does not hold and
    [step] answers the terminal flag [true], the action is an exploit that
    succeeded, its target is sensitive and was not yet compromised, and the
    reward is the full value minus the cost. *)
Theorem goal_reached_by_exploit_of_sensitive {G} (np_rand : G → Q * G)
  (e e' : Env G) (a : Action) (reward : Q) :
  _is_goal e = false →
  step np_rand e a = Ok (e', reward, true) →
  is_scan a = false ∧
  (perform_action (network e) a).1.1 = true ∧
  target a ∈ get_sensitive_machines (network e) ∧
  (target a ∉ compromised_set (current_state e)) ∧
  reward = ((perform_action (network e) a).1.2 - cost a)%Q.
Proof.
  intros Hnot Hstep.
  destruct (is_goal_false e Hnot) as (m & Hm & Hmc).
  destruct (step_static np_rand e a e' reward true Hstep) as (HN & _).
  destruct (step_inv np_rand e a e' reward true Hstep)
    as [(_ & _ & _ & _ & _ & _ & ?) | (Hpass & vec & _ & He' & Hr & Hd)];
    [done|].
  symmetry in Hd. pose proof (proj1 (is_goal_spec e') Hd) as Hall.
  rewrite HN in Hall. specialize (Hall m Hm).
  destruct (decide (is_scan a = true ∨ (perform_action (network e) a).1.1 = false))
    as [Hkind | Hkind].
  { exfalso. apply Hmc.
    pose proof (update_state_sets_kept
                  (with_np_random e (np_rand (np_random e)).2) a _ vec Hkind)
      as Hsets.
    rewrite <- He' in Hsets. unfold knowledge_sets in Hsets. simpl in Hsets.
    injection Hsets as Hc _ _. by rewrite <- Hc. }
  destruct a as [tgt c | tgt service c p]; [by destruct Hkind; left|].
  destruct (perform_action (network e) (Exploit tgt service c p)).1.1
    eqn:Hsuccess; [|by destruct Hkind; right].
  destruct (update_state_exploit_succeeded
              (with_np_random e (np_rand (np_random e)).2)
              tgt service c p vec) as (Hc & _).
  rewrite <- He' in Hc. simpl in Hc. rewrite Hc in Hall.
  apply elem_of_union in Hall as [Hall | Hall]; [|done].
  apply elem_of_singleton in Hall as ->. cbn [target is_scan] in *.
  split; [done|]. split; [done|]. split; [done|]. split; [done|].
  rewrite Hr. unfold compromised.
  by rewrite (proj2 (bool_decide_eq_false _) Hmc).
Qed.

Lemma goal_reached_by_exploit_of_sensitive_witness :
  is_scan exploit_20 = false ∧
  (perform_action (network (after lcg_rand (demo_env 1) [exploit_10]))
     exploit_20).1.1 = true ∧
  target exploit_20
    ∈ get_sensitive_machines
        (network (after lcg_rand (demo_env 1) [exploit_10])) ∧
  (target exploit_20
     ∉ compromised_set
         (current_state (after lcg_rand (demo_env 1) [exploit_10]))) ∧
  (9 : Q) =
    ((perform_action (network (after lcg_rand (demo_env 1) [exploit_10]))
        exploit_20).1.2 - cost exploit_20)%Q.
Proof.
  apply (goal_reached_by_exploit_of_sensitive lcg_rand
           (after lcg_rand (demo_env 1) [exploit_10])
           (after lcg_rand (demo_env 1) [exploit_10; exploit_20])
           exploit_20 9).
  - vm_compute. reflexivity.
  - vm_compute. reflexivity.
Defined.

(** ** Invariants of runs *)

Section RunInvariants.

Context {G : Type} (np_rand : G → Q * G).
Implicit Types (e : Env G) (a : Action).

(** What an exploit that went through and succeeded does to the sets. *)
Lemma step_successful_exploit e a e' reward done :
  step np_rand e a = Ok (e', reward, done) →
  knowledge_sets e' ≠ knowledge_sets e →
  target a ∈ reachable_set (current_state e) ∧
  compromised_set (current_state e') =
    {[target a]} ∪ compromised_set (current_state e) ∧
  compromised_subnets e' = {[(target a).1]} ∪ compromised_subnets e ∧
  ∀ m, m ∈ reachable_set (current_state e') ↔
       m ∈ reachable_set (current_state e) ∨
       (m ∈ get_address_space (network e) ∧
        subnets_connected (network e) (target a).1 m.1 = true).
Proof.
  intros Hstep Hchanged.
  destruct (step_inv np_rand e a e' reward done Hstep)
    as [(_ & Hk & _) | ((Hr & _) & vec & _ & -> & _ & _)].
  { exfalso. apply Hchanged. unfold knowledge in Hk. unfold knowledge_sets.
    by injection Hk as -> ->. }
  split; [by apply bool_decide_eq_true in Hr|].
  destruct a as [tgt c | tgt service c p].
  { exfalso. apply Hchanged. by rewrite update_state_sets_kept by (by left). }
  destruct (perform_action (network e) (Exploit tgt service c p)).1.1.
  2: { exfalso. apply Hchanged.
       by rewrite update_state_sets_kept by (by right). }
  destruct (update_state_exploit_succeeded
              (with_np_random e (np_rand (np_random e)).2)
              tgt service c p vec) as (Hc & Hcs & _ & Hre).
  done.
Qed.

Lemma step_keeps_compromised_reachable e a e' reward done :
  compromised_set (current_state e) ⊆ reachable_set (current_state e) →
  step np_rand e a = Ok (e', reward, done) →
  compromised_set (current_state e') ⊆ reachable_set (current_state e').
Proof.
  intros Hinv Hstep.
  destruct (decide (knowledge_sets e' = knowledge_sets e)) as [Heq | Hne].
  - unfold knowledge_sets in Heq. injection Heq as -> -> _. done.
  - destruct (step_successful_exploit e a e' reward done Hstep Hne)
      as (Hin & -> & _ & Hre).
    intros m [->%elem_of_singleton | Hm]%elem_of_union; apply Hre; left;
      [done | by apply Hinv].
Qed.

Lemma step_keeps_cache_exact INTERNET e a e' reward done :
  subnet_cache_exact INTERNET e →
  step np_rand e a = Ok (e', reward, done) →
  subnet_cache_exact INTERNET e'.
Proof.
  unfold subnet_cache_exact. intros Hinv Hstep.
  destruct (decide (knowledge_sets e' = knowledge_sets e)) as [Heq | Hne].
  - unfold knowledge_sets in Heq. injection Heq as -> _ ->. done.
  - destruct (step_successful_exploit e a e' reward done Hstep Hne)
      as (_ & -> & -> & _).
    rewrite Hinv, set_map_union_L, set_map_singleton_L.
    rewrite !(assoc_L (∪)). f_equal. apply (comm_L (∪)).
Qed.

Lemma step_keeps_admission e a0 a e' reward done :
  _action_traffic_permitted e a0 = true →
  step np_rand e a = Ok (e', reward, done) →
  _action_traffic_permitted e' a0 = true.
Proof.
  intros Hperm Hstep.
  destruct (step_static np_rand e a e' reward done Hstep) as (HN & _).
  destruct (step_sets_grow np_rand e a e' reward done Hstep) as (_ & Hr & Hcs).
  pose proof (permitted_reachable e a0 Hperm) as Hreach.
  apply bool_decide_eq_true in Hreach.
  assert (reachable (current_state e') (target a0) = true) as Hreach'
    by (by apply bool_decide_eq_true, Hr).
  destruct a0 as [tgt c | tgt service c p].
  - unfold _action_traffic_permitted. by rewrite Hreach'.
  - apply permitted_exploit. split; [done|].
    apply permitted_exploit in Hperm as (_ & src & Hsrc & Ht).
    exists src. rewrite HN. split; [by apply Hcs | done].
Qed.

Lemma step_generator e a e' reward done :
  step np_rand e a = Ok (e', reward, done) →
  np_random e' = np_random e ∨ np_random e' = (np_rand (np_random e)).2.
Proof.
  intros Hstep.
  destruct (reachable (current_state e) (target a)) eqn:Hr.
  2: { rewrite step_unreachable in Hstep by done.
       injection Hstep as <- _ _. by left. }
  destruct (_action_traffic_permitted e a) eqn:Hp.
  2: { rewrite step_not_permitted in Hstep by done.
       injection Hstep as <- _ _. by left. }
  right.
  destruct (Qgt_bool (np_rand (np_random e)).1 (prob a)) eqn:Hd.
  { rewrite step_draw_too_high in Hstep by done.
    by injection Hstep as <- _ _. }
  rewrite step_full_pipeline in Hstep by done. cbn zeta in Hstep.
  destruct (_vectorize _ _) as [vec|err] eqn:Hvec;
    cbn [mbind result_bind] in Hstep; [|done].
  injection Hstep as <- _ _.
  by rewrite (proj1 (update_state_frame _ _ _ _)).
Qed.

End RunInvariants.

(** X6. Compromised machines are reachable machines: if every compromised
    machine is reachable before a run, every compromised machine is
    reachable after it. *)
Theorem compromised_stay_reachable {G} (np_rand : G → Q * G)
  (e e' : Env G) (actions : list Action) (rewards : list Q)
  (dones : list bool) :
  compromised_set (current_state e) ⊆ reachable_set (current_state e) →
  run np_rand e actions = Ok (e', rewards, dones) →
  compromised_set (current_state e') ⊆ reachable_set (current_state e').
Proof.
  apply (run_invariant np_rand
           (λ e, compromised_set (current_state e)
                 ⊆ reachable_set (current_state e))).
  intros e0 a e1 r d. apply step_keeps_compromised_reachable.
Qed.

Lemma compromised_stay_reachable_witness :
  compromised_set
    (current_state (after lcg_rand (demo_env 1) [exploit_10; exploit_20]))
  ⊆ reachable_set
      (current_state (after lcg_rand (demo_env 1) [exploit_10; exploit_20])).
Proof.
  apply (compromised_stay_reachable lcg_rand (demo_env 1) _
           [exploit_10; exploit_20] [9%Q; 9%Q] [false; true]).
  - apply (bool_decide_unpack _). vm_compute. exact I.
  - vm_compute. reflexivity.
Defined.

(** X7. In an episode that [reset] starts from an initial state without
    compromised machines, the cache of compromised subnets is at every
    moment exactly the ingress subnet together with the subnets of the
    compromised machines. *)
Theorem subnet_cache_stays_exact {G} (np_rand : G → Q * G) (INTERNET : nat)
  (e e' : Env G) (actions : list Action) (rewards : list Q)
  (dones : list bool) :
  compromised_set (init_state e) = ∅ →
  run np_rand (reset INTERNET e) actions = Ok (e', rewards, dones) →
  compromised_subnets e' =
  {[INTERNET]} ∪ set_map fst (compromised_set (current_state e')).
Proof.
  intros Hclean.
  apply (run_invariant np_rand (subnet_cache_exact INTERNET)).
  - intros e0 a e1 r d. apply step_keeps_cache_exact.
  - unfold subnet_cache_exact. simpl.
    by rewrite Hclean, set_map_empty, (right_id_L ∅ (∪)).
Qed.

Lemma subnet_cache_stays_exact_witness :
  compromised_subnets
    (after lcg_rand (reset 0 (demo_env 1)) [exploit_10; scan_10; exploit_20]) =
  {[0]} ∪ set_map fst
            (compromised_set
               (current_state
                  (after lcg_rand (reset 0 (demo_env 1))
                     [exploit_10; scan_10; exploit_20]))).
Proof.
  apply (subnet_cache_stays_exact lcg_rand 0 (demo_env 1) _
           [exploit_10; scan_10; exploit_20] [9%Q; (-1)%Q; 9%Q]
           [false; false; true]).
  - reflexivity.
  - vm_compute. reflexivity.
Defined.

(** X8. [reset] forgets the run: after any run, resetting gives the
    environment that resetting before the run would have given, apart from
    the generator, which stays where the run left it. *)
Theorem reset_forgets_the_run {G} (np_rand : G → Q * G) (INTERNET : nat)
  (e e' : Env G) (actions : list Action) (rewards : list Q)
  (dones : list bool) :
  run np_rand e actions = Ok (e', rewards, dones) →
  reset INTERNET e' = with_np_random (reset INTERNET e) (np_random e').
Proof.
  intros Hrun.
  destruct (run_static np_rand actions e e' rewards dones Hrun)
    as (HN & HSM & HI & Hnum).
  destruct e, e'. simpl in *. subst.
  reflexivity.
Qed.

Lemma reset_forgets_the_run_witness :
  reset 0 (after lcg_rand (demo_env 1) [scan_10; exploit_10]) =
  with_np_random (reset 0 (demo_env 1))
    (np_random (after lcg_rand (demo_env 1) [scan_10; exploit_10])).
Proof.
  apply (reset_forgets_the_run lcg_rand 0 (demo_env 1) _ [scan_10; exploit_10]
           [(-1)%Q; 9%Q] [false; false]).
  vm_compute. reflexivity.
Defined.

(** X9. An action that the firewall check lets through is let through for
    the rest of the episode: whatever run follows, the same action is still
    admitted afterwards. *)
Theorem admitted_stays_admitted {G} (np_rand : G → Q * G) (e e' : Env G)
  (a : Action) (actions : list Action) (rewards : list Q)
  (dones : list bool) :
  _action_traffic_permitted e a = true →
  run np_rand e actions = Ok (e', rewards, dones) →
  _action_traffic_permitted e' a = true.
Proof.
  apply (run_invariant np_rand (λ e, _action_traffic_permitted e a = true)).
  intros e0 a0 e1 r d. apply step_keeps_admission.
Qed.

Lemma admitted_stays_admitted_witness :
  _action_traffic_permitted
    (after lcg_rand (demo_env 1) [scan_10; exploit_10; exploit_20])
    exploit_10 = true.
Proof.
  apply (admitted_stays_admitted lcg_rand (demo_env 1) _ exploit_10
           [scan_10; exploit_10; exploit_20] [(-1)%Q; 9%Q; 9%Q]
           [false; false; true]).
  - vm_compute. reflexivity.
  - vm_compute. reflexivity.
Defined.

(** X10. Reachability spreads from compromised machines only: a machine that
    is reachable after a run was reachable before it or is a machine of the
    network whose subnet is adjacent to the subnet of a machine that is
    compromised after the run. *)
Theorem reachability_spreads_from_compromised {G} (np_rand : G → Q * G)
  (e e' : Env G) (actions : list Action) (rewards : list Q)
  (dones : list bool) :
  run np_rand e actions = Ok (e', rewards, dones) →
  ∀ m, m ∈ reachable_set (current_state e') →
       m ∈ reachable_set (current_state e) ∨
       (m ∈ get_address_space (network e) ∧
        ∃ t, t ∈ compromised_set (current_state e') ∧
             subnets_connected (network e) t.1 m.1 = true).
Proof.
  intros Hrun.
  apply (run_rel np_rand (λ e e',
    network e' = network e ∧
    compromised_set (current_state e) ⊆ compromised_set (current_state e') ∧
    ∀ m, m ∈ reachable_set (current_state e') →
         m ∈ reachable_set (current_state e) ∨
         (m ∈ get_address_space (network e) ∧
          ∃ t, t ∈ compromised_set (current_state e') ∧
               subnets_connected (network e) t.1 m.1 = true)))
    in Hrun; [by destruct Hrun as (_ & _ & ?) | | |].
  - intros e0. split; [done|]. split; [done|]. intros m Hm. by left.
  - intros e1 e2 e3 (HN & Hc & Hr) (HN' & Hc' & Hr').
    split; [by rewrite HN'|]. split; [by etrans|].
    intros m Hm. destruct (Hr' m Hm) as [Hm2 | (Haddr & t & Ht & Hconn)].
    + destruct (Hr m Hm2) as [Hm1 | (Haddr & t & Ht & Hconn)]; [by left|].
      right. split; [done|]. exists t. split; [by apply Hc'|done].
    + right. rewrite HN in Haddr, Hconn. split; [done|]. by exists t.
  - intros e0 a e1 r d Hstep.
    destruct (step_static np_rand e0 a e1 r d Hstep) as (HN & _).
    destruct (step_sets_grow np_rand e0 a e1 r d Hstep) as (Hc & _).
    split; [done|]. split; [done|]. intros m Hm.
    destruct (decide (knowledge_sets e1 = knowledge_sets e0)) as [Heq | Hne].
    + left. unfold knowledge_sets in Heq. injection Heq as _ Heq _.
      by rewrite <- Heq.
    + destruct (step_successful_exploit np_rand e0 a e1 r d Hstep Hne)
        as (_ & Hcomp & _ & Hre).
      apply Hre in Hm as [Hm | (Haddr & Hconn)]; [by left|].
      right. split; [done|]. exists (target a). split; [|done].
      rewrite Hcomp. apply elem_of_union_l. by apply elem_of_singleton.
Qed.

Lemma reachability_spreads_from_compromised_witness :
  (2, 0) ∈ reachable_set (current_state (demo_env 1)) ∨
  ((2, 0) ∈ get_address_space (network (demo_env 1)) ∧
   ∃ t, t ∈ compromised_set
              (current_state (after lcg_rand (demo_env 1) [exploit_10])) ∧
        subnets_connected (network (demo_env 1)) t.1 2 = true).
Proof.
  apply (reachability_spreads_from_compromised lcg_rand (demo_env 1)
           (after lcg_rand (demo_env 1) [exploit_10])
           [exploit_10] [9%Q] [false]).
  - vm_compute. reflexivity.
  - apply (bool_decide_unpack _). vm_compute. exact I.
Defined.

(** X11. A run draws from the generator at most once per action: after a run
    of [n] actions the generator is where some [k ≤ n] draws take it. *)
Theorem run_draws_at_most_once_per_action {G} (np_rand : G → Q * G)
  (actions : list Action) (e e' : Env G) (rewards : list Q)
  (dones : list bool) :
  run np_rand e actions = Ok (e', rewards, dones) →
  ∃ k, k ≤ length actions ∧
       np_random e' = draws np_rand k (np_random e).
Proof.
  revert e e' rewards dones.
  induction actions as [|a actions IH]; intros e e' rs ds Hrun.
  - injection Hrun as <- _ _. by exists 0.
  - apply run_cons_inv in Hrun
      as (e1 & r & d & rs' & ds' & Hstep & Hrun & _ & _).
    destruct (IH e1 e' rs' ds' Hrun) as (k & Hk & Hg).
    destruct (step_generator np_rand e a e1 r d Hstep) as [Hsame | Hnext].
    + exists k. split; [simpl; lia|]. by rewrite Hg, Hsame.
    + exists (S k). split; [simpl; lia|]. rewrite Hg, Hnext.
      unfold draws. by rewrite Nat.iter_succ_r.
Qed.

Lemma run_draws_at_most_once_per_action_witness :
  ∃ k, k ≤ length [scan_30; scan_10; exploit_10] ∧
       np_random (after lcg_rand (demo_env 1) [scan_30; scan_10; exploit_10])
       = draws lcg_rand k (np_random (demo_env 1)).
Proof.
  apply (run_draws_at_most_once_per_action lcg_rand
           [scan_30; scan_10; exploit_10] (demo_env 1) _
           [(-1)%Q; (-1)%Q; 9%Q] [false; false; false]).
  vm_compute. reflexivity.
Defined.

(** ** Doing the same thing twice *)

Section Idempotence.

Context {G : Type}.
Implicit Types (e : Env G) (a : Action).

Lemma state_eq (st1 st2 : State) :
  compromised_set st1 = compromised_set st2 →
  reachable_set st1 = reachable_set st2 →
  service_belief st1 = service_belief st2 →
  st1 = st2.
Proof. destruct st1, st2. simpl. by intros -> -> ->. Qed.

Lemma write_beliefs_at_0 (vs : list Z) (vec : list belief) j v :
  vs !! j = Some v → j < length vec →
  write_beliefs 0 vs vec !! j = Some (belief_of v).
Proof. intros E Hlt. exact (write_beliefs_at vs 0 vec j v E Hlt). Qed.

Lemma write_beliefs_idem (vs : list Z) (vec : list belief) :
  write_beliefs 0 vs (write_beliefs 0 vs vec) = write_beliefs 0 vs vec.
Proof.
  apply list_eq. intros j.
  destruct (vs !! j) as [v|] eqn:E.
  - destruct (decide (j < length vec)) as [Hlt | Hge].
    + rewrite (write_beliefs_at_0 vs _ j v E)
        by (by rewrite write_beliefs_length).
      by rewrite (write_beliefs_at_0 vs vec j v E).
    + rewrite !(proj2 (lookup_ge_None _ j));
        [done | rewrite ?write_beliefs_length; lia ..].
  - apply lookup_ge_None in E. by rewrite write_beliefs_above by (simpl; lia).
Qed.

Lemma alter_write_idem (tgt : address) (vs : list Z)
  (B : gmap address (list belief)) :
  alter (write_beliefs 0 vs) tgt (alter (write_beliefs 0 vs) tgt B) =
  alter (write_beliefs 0 vs) tgt B.
Proof.
  apply map_eq. intros m. destruct (decide (tgt = m)) as [<-|Hne].
  - rewrite !lookup_alter_eq. destruct (B !! tgt); simpl; [|done].
    by rewrite write_beliefs_idem.
  - by rewrite !lookup_alter_ne.
Qed.

Lemma update_state_idem e a success vec (g : G) :
  knowledge (_update_state
               (with_np_random (_update_state e a success vec) g)
               a success vec) =
  knowledge (_update_state e a success vec).
Proof.
  unfold knowledge. destruct a as [tgt c | tgt service c p].
  - rewrite !update_state_scan. simpl. f_equal. apply state_eq.
    + by rewrite !update_services_compromised.
    + by rewrite !update_services_reachable.
    + rewrite !update_services_belief. apply alter_write_idem.
  - destruct success; [|by rewrite !update_state_exploit_failed].
    pose proof (update_state_exploit_succeeded e tgt service c p vec) as H1.
    cbv zeta in H1.
    set (e1 := _update_state e (Exploit tgt service c p) true vec) in *.
    pose proof (update_state_exploit_succeeded (with_np_random e1 g)
                  tgt service c p vec) as H2.
    cbv zeta in H2.
    set (e2 := _update_state (with_np_random e1 g)
                 (Exploit tgt service c p) true vec) in *.
    change (current_state (with_np_random e1 g)) with (current_state e1) in H2.
    change (compromised_subnets (with_np_random e1 g))
      with (compromised_subnets e1) in H2.
    change (network (with_np_random e1 g)) with (network e1) in H2.
    assert (network e1 = network e) as HN
      by (subst e1; by rewrite (proj1 (proj2 (update_state_frame _ _ _ _)))).
    destruct H1 as (Hc & Hcs & Hb & Hre), H2 as (Hc' & Hcs' & Hb' & Hre').
    f_equal.
    + apply state_eq.
      * rewrite Hc', Hc. by rewrite (assoc_L (∪)), (idemp_L (∪)).
      * apply set_eq. intros m. rewrite Hre', HN, Hre. tauto.
      * rewrite Hb', Hb. apply alter_write_idem.
    + rewrite Hcs', Hcs. by rewrite (assoc_L (∪)), (idemp_L (∪)).
Qed.

End Idempotence.

(** X12. Repeating an action that got through the gates changes nothing
    further: whatever the second call's draw, the knowledge state after the
    second call is the knowledge state after the first. *)
Theorem repeating_an_action_changes_nothing {G} (np_rand : G → Q * G)
  (e e1 e2 : Env G) (a : Action) (r1 r2 : Q) (d1 d2 : bool) :
  gates_pass np_rand e a →
  step np_rand e a = Ok (e1, r1, d1) →
  step np_rand e1 a = Ok (e2, r2, d2) →
  knowledge e2 = knowledge e1.
Proof.
  intros Hpass Hstep1 Hstep2.
  destruct (step_static np_rand e a e1 r1 d1 Hstep1) as (HN & HSM & _).
  destruct (step_inv np_rand e a e1 r1 d1 Hstep1)
    as [(Hno & _) | (_ & vec & Hvec & He1 & _)]; [done|].
  destruct (step_inv np_rand e1 a e2 r2 d2 Hstep2)
    as [(_ & Hk & _) | (_ & vec2 & Hvec2 & He2 & _)]; [done|].
  rewrite HN, HSM, Hvec in Hvec2. injection Hvec2 as <-.
  rewrite HN in He2. rewrite He2. rewrite He1 at 1 3.
  apply update_state_idem.
Qed.

Lemma repeating_an_action_changes_nothing_witness :
  knowledge (after lcg_rand (demo_env 1) [exploit_10; exploit_10]) =
  knowledge (after lcg_rand (demo_env 1) [exploit_10]).
Proof.
  apply (repeating_an_action_changes_nothing lcg_rand (demo_env 1) _ _
           exploit_10 9 (-1) false false).
  - vm_compute. done.
  - vm_compute. reflexivity.
  - vm_compute. reflexivity.
Defined.

(** ** The service vector, whatever the dictionary *)

Section VectorizeOutcome.

Implicit Types (sm : gmap nat nat) (items services : list (nat * bool)).

(** How the loop of [_vectorize] ends. *)
Lemma fill_vector_outcome sm items : ∀ (vector : list Z),
  match fill_vector sm items vector with
  | Ok vec =>
      length vec = length vector ∧
      ∀ s v, (s, v) ∈ items → ∃ i, sm !! s = Some i ∧ i < length vector
  | Raise KeyError => ∃ s v, (s, v) ∈ items ∧ sm !! s = None
  | Raise IndexError =>
      ∃ s v i, (s, v) ∈ items ∧ sm !! s = Some i ∧ length vector ≤ i
  end.
Proof.
  induction items as [|[s v] items IH]; intros vector; simpl.
  - split; [done|]. intros s v H. inversion H.
  - unfold _get_service_index. destruct (sm !! s) as [i|] eqn:Hs; simpl.
    2: { exists s, v. split; [by left | done]. }
    destruct (i <? length vector) eqn:Hi.
    2: { apply Nat.ltb_ge in Hi. exists s, v, i. split; [by left | done]. }
    apply Nat.ltb_lt in Hi.
    specialize (IH (<[i := Z.b2z v]> vector)).
    destruct (fill_vector sm items (<[i := Z.b2z v]> vector)) as [vec|[|]].
    + rewrite length_insert in IH. destruct IH as [Hlen Hall].
      split; [done|]. intros s' v' [[= -> ->] | Hin]%elem_of_cons.
      * by exists i.
      * by apply (Hall s' v').
    + destruct IH as (s' & v' & Hin & Hnone). exists s', v'.
      split; [by right | done].
    + rewrite length_insert in IH.
      destruct IH as (s' & v' & i' & Hin & Hsome & Hge). exists s', v', i'.
      split; [by right | done].
Qed.

Lemma vectorize_items sm services vec :
  _vectorize sm services = Ok vec →
  length vec = length services ∧
  (∀ s v, (s, v) ∈ services → ∃ i, sm !! s = Some i ∧ i < length services) ∧
  fill_vector sm services (replicate (length services) 0%Z) = Ok vec.
Proof.
  unfold _vectorize. destruct (length services =? 0) eqn:E.
  - apply Nat.eqb_eq in E. destruct services; [|done]. intros [= <-].
    split; [done|]. split; [|done]. intros s v H. inversion H.
  - intros Hfill.
    pose proof (fill_vector_outcome sm services
                  (replicate (length services) 0%Z)) as Hout.
    rewrite Hfill, length_replicate in Hout. by destruct Hout as [Hlen Hall].
Qed.

(** Distinct numbers below [n], [n] of them, are all the numbers below
    [n]. *)
Lemma pigeonhole (l : list nat) (n i : nat) :
  NoDup l → length l = n → (∀ x, x ∈ l → x < n) → i < n → i ∈ l.
Proof.
  intros Hnd Hlen Hlt Hi.
  assert (l ⊆+ seq 0 n) as Hsub.
  { apply NoDup_submseteq; [done|]. intros x Hx.
    apply elem_of_seq. specialize (Hlt x Hx). lia. }
  assert (l ≡ₚ seq 0 n) as Hperm.
  { apply submseteq_length_Permutation; [done|]. rewrite length_seq. lia. }
  rewrite Hperm. apply elem_of_seq. lia.
Qed.

(** Entry [i] of an accepted dictionary's vector is the value of the
    [i]-th configured service. *)
Lemma vectorize_entry (keys : list nat) services vec i s v :
  NoDup keys → NoDup services.*1 →
  _vectorize (build_service_map keys) services = Ok vec →
  keys !! i = Some s → (s, v) ∈ services →
  vec !! i = Some (Z.b2z v).
Proof.
  intros Hkeys Hnd Hvec Hi Hin.
  apply vectorize_items in Hvec as (_ & Hall & Hfill).
  destruct (fill_vector_spec (build_service_map keys) services
              (replicate (length services) 0%Z))
    as (vec' & Hfill' & _ & _ & Hset).
  { intros s' v' Hin'. rewrite length_replicate. by apply (Hall s' v'). }
  rewrite Hfill in Hfill'. injection Hfill' as <-.
  apply (Hset Hnd) with (s := s); [|done|by apply build_service_map_lookup].
  intros s1 s2 j H1 H2.
  apply build_service_map_inv in H1, H2; [congruence|done|done].
Qed.

(** Every entry of an accepted dictionary's vector comes from an item. *)
Lemma vectorize_covers (keys : list nat) services vec i :
  NoDup keys → NoDup services.*1 →
  _vectorize (build_service_map keys) services = Ok vec →
  i < length vec →
  ∃ s v, keys !! i = Some s ∧ (s, v) ∈ services ∧ vec !! i = Some (Z.b2z v).
Proof.
  intros Hkeys Hnd Hvec Hi.
  pose proof (vectorize_items _ _ _ Hvec) as (Hlen & Hall & _).
  set (index := λ s, default 0 (build_service_map keys !! s)).
  assert (i ∈ index <$> services.*1) as Hin.
  { apply (pigeonhole _ (length services)).
    - apply NoDup_fmap_2_strong; [|done].
      intros s1 s2 Hs1 Hs2 Heq.
      apply list_elem_of_fmap in Hs1 as ([s1' v1] & -> & Hi1).
      apply list_elem_of_fmap in Hs2 as ([s2' v2] & -> & Hi2).
      destruct (Hall _ _ Hi1) as (j1 & Hj1 & _).
      destruct (Hall _ _ Hi2) as (j2 & Hj2 & _).
      unfold index in Heq. simpl in *. rewrite Hj1, Hj2 in Heq. simpl in Heq.
      subst j2. apply build_service_map_inv in Hj1, Hj2; [congruence|done|done].
    - by rewrite !length_fmap.
    - intros x Hx. apply list_elem_of_fmap in Hx as (s & -> & Hs).
      apply list_elem_of_fmap in Hs as ([s' v] & -> & Hsv).
      destruct (Hall _ _ Hsv) as (j & Hj & Hlt).
      unfold index. simpl. by rewrite Hj.
    - by rewrite <- Hlen. }
  apply list_elem_of_fmap in Hin as (s & -> & Hs).
  apply list_elem_of_fmap in Hs as ([s' v] & -> & Hsv).
  destruct (Hall _ _ Hsv) as (j & Hj & _).
  unfold index. simpl. rewrite Hj. simpl.
  apply build_service_map_inv in Hj; [|done].
  exists s', v. split; [done|]. split; [done|].
  by apply (vectorize_entry keys services vec j s' v).
Qed.

End VectorizeOutcome.

(** X13. [_vectorize] answers a vector exactly when every service of the
    dictionary has an index in the service map that is smaller than the size
    of the dictionary, and the vector is then as long as the dictionary (not
    as long as the list of configured services); it raises KeyError only
    for a service without an index and IndexError only for an index that is
    not smaller than the size of the dictionary. *)
Theorem vectorize_outcome (sm : gmap nat nat) (services : list (nat * bool)) :
  match _vectorize sm services with
  | Ok vec =>
      length vec = length services ∧
      ∀ s v, (s, v) ∈ services → ∃ i, sm !! s = Some i ∧ i < length services
  | Raise KeyError => ∃ s v, (s, v) ∈ services ∧ sm !! s = None
  | Raise IndexError =>
      ∃ s v i, (s, v) ∈ services ∧ sm !! s = Some i ∧ length services ≤ i
  end.
Proof.
  unfold _vectorize. destruct (length services =? 0) eqn:E.
  - apply Nat.eqb_eq in E. destruct services; [|done].
    split; [done|]. intros s v H. inversion H.
  - pose proof (fill_vector_outcome sm services
                  (replicate (length services) 0%Z)) as Hout.
    rewrite length_replicate in Hout.
    destruct (fill_vector sm services _) as [vec|[|]]; [|done|done].
    destruct Hout as [-> Hall]. done.
Qed.

(** X14. With the service map that the constructor builds from distinct
    services, a dictionary that [_vectorize] accepts holds exactly the
    first configured services, as many as it has items: entry [i] of the
    vector is the value the dictionary gives for the [i]-th configured
    service, and every entry of the vector comes from an item. *)
Theorem vectorize_entries (keys : list nat) (services : list (nat * bool))
  (vec : list Z) :
  NoDup keys → NoDup services.*1 →
  _vectorize (build_service_map keys) services = Ok vec →
  (∀ i s v, keys !! i = Some s → (s, v) ∈ services →
            vec !! i = Some (Z.b2z v)) ∧
  (∀ i, i < length vec →
        ∃ s v, keys !! i = Some s ∧ (s, v) ∈ services ∧
               vec !! i = Some (Z.b2z v)).
Proof.
  intros Hkeys Hnd Hvec. split.
  - intros i s v. by apply vectorize_entry.
  - intros i. by apply vectorize_covers.
Qed.

Lemma vectorize_entries_witness :
  (∀ i s v, [7; 8; 9] !! i = Some s → (s, v) ∈ [(8, true); (7, false)] →
            [0; 1]%Z !! i = Some (Z.b2z v)) ∧
  (∀ i, i < length [0; 1]%Z →
        ∃ s v, [7; 8; 9] !! i = Some s ∧ (s, v) ∈ [(8, true); (7, false)] ∧
               [0; 1]%Z !! i = Some (Z.b2z v)).
Proof.
  apply (vectorize_entries [7; 8; 9] [(8, true); (7, false)]).
  - apply (bool_decide_unpack _). vm_compute. exact I.
  - apply (bool_decide_unpack _). vm_compute. exact I.
  - vm_compute. reflexivity.
Defined.

(** X15. A dictionary that leaves out a configured service while holding
    more items than that service's index makes [step] raise: when the gates
    are passed and the network hands back such a dictionary, [step] answers
    no observation, reward or flag at all. *)
Theorem step_raises_on_partial_dictionary {G} (np_rand : G → Q * G)
  (e : Env G) (a : Action) (keys : list nat) (i s : nat) :
  gates_pass np_rand e a →
  service_map e = build_service_map keys →
  NoDup keys → NoDup (perform_action (network e) a).2.*1 →
  keys !! i = Some s →
  i < length (perform_action (network e) a).2 →
  s ∉ (perform_action (network e) a).2.*1 →
  ∃ x, step np_rand e a = Raise x.
Proof.
  intros (Hr & Hp & Hd) Hsm Hkeys Hnd Hi Hlt Hout.
  rewrite step_full_pipeline by done. cbn zeta. rewrite Hsm.
  destruct (_vectorize (build_service_map keys) (perform_action (network e) a).2)
    as [vec|x] eqn:Hvec; cbn [mbind result_bind]; [|by exists x].
  exfalso.
  pose proof (vectorize_items _ _ _ Hvec) as (Hlen & _).
  destruct (vectorize_covers keys _ vec i Hkeys Hnd Hvec)
    as (s' & v & Hi' & Hin & _); [lia|].
  rewrite Hi in Hi'. injection Hi' as <-.
  apply Hout. apply list_elem_of_fmap. by exists (s, v).
Qed.

Lemma step_raises_on_partial_dictionary_witness :
  ∃ x, step lcg_rand (partial_env 1) scan_10 = Raise x.
Proof.
  apply (step_raises_on_partial_dictionary lcg_rand (partial_env 1) scan_10
           demo_keys 0 0).
  - vm_compute. done.
  - reflexivity.
  - apply (bool_decide_unpack _). vm_compute. exact I.
  - apply (bool_decide_unpack _). vm_compute. exact I.
  - reflexivity.
  - vm_compute. lia.
  - apply (bool_decide_unpack _). vm_compute. exact I.
Defined.

(** X16. The service map built by the constructor from distinct services is
    the inverse of their enumeration: [_get_service_index] answers [i] for
    exactly the [i]-th configured service, and raises KeyError for exactly
    the services that are not configured. *)
Theorem service_index_round_trip (keys : list nat) (s : nat) :
  NoDup keys →
  (∀ i, _get_service_index (build_service_map keys) s = Ok i ↔
        keys !! i = Some s) ∧
  (_get_service_index (build_service_map keys) s = Raise KeyError ↔
   s ∉ keys).
Proof.
  intros Hnd. unfold _get_service_index. split.
  - intros i. split.
    + destruct (build_service_map keys !! s) as [j|] eqn:Hs; [|done].
      intros [= ->]. by apply build_service_map_inv.
    + intros Hi. by rewrite (build_service_map_lookup keys i s).
  - split.
    + destruct (build_service_map keys !! s) as [j|] eqn:Hs; [done|].
      intros _ Hin. apply list_elem_of_lookup in Hin as [j Hj].
      by rewrite (build_service_map_lookup keys j s) in Hs.
    + intros Hout. unfold build_service_map.
      by rewrite service_map_fold_absent.
Qed.

Lemma service_index_round_trip_witness :
  (∀ i, _get_service_index (build_service_map [7; 8; 9]) 8 = Ok i ↔
        [7; 8; 9] !! i = Some 8) ∧
  (_get_service_index (build_service_map [7; 8; 9]) 8 = Raise KeyError ↔
   8 ∉ [7; 8; 9]).
Proof.
  apply service_index_round_trip.
  apply (bool_decide_unpack _). vm_compute. exact I.
Defined.

(** ** The name of the output file *)

Lemma last_char_app (p s : string) :
  s ≠ EmptyString → last_char (p +:+ s) = last_char s.
Proof.
  intros Hs. induction p as [|c p IH]; [done|].
  simpl. rewrite IH. destruct (p +:+ s) eqn:E; [|done].
  destruct p; simpl in E; [by subst | done].
Qed.

(** X17. The name [outfile_name] gives ends in "stoch" exactly when
    [exploit_probs] is [None] or a list, in "det" exactly when it is a
    number equal to 1, and in "False" in every other case: for every other
    number and for every string, the default 'mixed' among them. *)
Theorem outfile_name_ending (subnets : list nat) (n_services : nat)
  (exploit_probs : ExploitProbs) :
  (ends_with "stoch" (outfile_name subnets n_services exploit_probs) ↔
   exploit_probs = ProbsNone ∨ ∃ l, exploit_probs = ProbsList l) ∧
  (ends_with "det" (outfile_name subnets n_services exploit_probs) ↔
   ∃ p, exploit_probs = ProbsNumber p ∧ (p == 1)%Q) ∧
  (ends_with "False" (outfile_name subnets n_services exploit_probs) ↔
   (∃ name, exploit_probs = ProbsString name) ∨
   ∃ p, exploit_probs = ProbsNumber p ∧ ¬ (p == 1)%Q).
Proof.
  unfold outfile_name.
  set (output := (format_int_list subnets +:+ "_")
                 +:+ (pretty n_services +:+ "_")).
  assert (∀ suffix tag, suffix ≠ EmptyString → tag ≠ EmptyString →
            ends_with suffix (output +:+ tag) →
            last_char suffix = last_char tag) as Hlast.
  { intros suffix tag Hs Ht [p Hp].
    rewrite <- (last_char_app output tag Ht), Hp. symmetry.
    by apply last_char_app. }
  assert (∀ tag, ends_with tag (output +:+ tag)) as Hends
    by (intros tag; by exists output).
  destruct exploit_probs as [|l|p|name]; cbn zeta iota.
  - split; [|split]; (split; [intros H | intros H]).
    + by left.
    + apply Hends.
    + by apply Hlast in H.
    + by destruct H as (? & ? & _).
    + by apply Hlast in H.
    + by destruct H as [[? ?] | (? & ? & _)].
  - split; [|split]; (split; [intros H | intros H]).
    + right. by exists l.
    + apply Hends.
    + by apply Hlast in H.
    + by destruct H as (? & ? & _).
    + by apply Hlast in H.
    + by destruct H as [[? ?] | (? & ? & _)].
  - destruct (Qeq_bool p 1) eqn:E.
    + apply Qeq_bool_iff in E.
      split; [|split]; (split; [intros H | intros H]).
      * by apply Hlast in H.
      * by destruct H as [? | [? ?]].
      * by exists p.
      * apply Hends.
      * by apply Hlast in H.
      * destruct H as [[? ?] | (? & [= <-] & Hne)]; done.
    + assert (¬ (p == 1)%Q) as Hne.
      { intros Heq. apply Qeq_bool_iff in Heq. congruence. }
      split; [|split]; (split; [intros H | intros H]).
      * by apply Hlast in H.
      * by destruct H as [? | [? ?]].
      * by apply Hlast in H.
      * destruct H as (? & [= <-] & Heq). done.
      * right. by exists p.
      * apply Hends.
  - split; [|split]; (split; [intros H | intros H]).
    + by apply Hlast in H.
    + by destruct H as [? | [? ?]].
    + by apply Hlast in H.
    + by destruct H as (? & ? & _).
    + left. by exists name.
    + apply Hends.
Qed.

(** The default setting, with three subnets and two services. *)
Example outfile_name_default :
  outfile_name [1; 1; 1] 2 (ProbsString "mixed") = "[1, 1, 1]_2_False".
Proof. vm_compute. reflexivity. Qed.

(** ** The order of the items of a dictionary *)

Lemma vectorize_accepts (sm : gmap nat nat) (services : list (nat * bool)) :
  (∀ s v, (s, v) ∈ services → ∃ i, sm !! s = Some i ∧ i < length services) →
  ∃ vec, _vectorize sm services = Ok vec.
Proof.
  intros Hall. unfold _vectorize.
  destruct (length services =? 0); [by exists []|].
  destruct (fill_vector_spec sm services (replicate (length services) 0%Z))
    as (vec & Hfill & _).
  { intros s v Hin. rewrite length_replicate. by apply (Hall s v). }
  by exists vec.
Qed.

(** X18. The vector does not depend on the order in which the dictionary
    hands out its items: with the service map built from distinct services,
    a dictionary that [_vectorize] accepts gives the same vector in any
    other order of its items. *)
Theorem vectorize_order_irrelevant (keys : list nat)
  (services services' : list (nat * bool)) (vec : list Z) :
  NoDup keys → NoDup services.*1 →
  services ≡ₚ services' →
  _vectorize (build_service_map keys) services = Ok vec →
  _vectorize (build_service_map keys) services' = Ok vec.
Proof.
  intros Hkeys Hnd Hperm Hvec.
  assert (NoDup services'.*1) as Hnd' by (by rewrite <- Hperm).
  pose proof (vectorize_items _ _ _ Hvec) as (Hlen & Hall & _).
  destruct (vectorize_accepts (build_service_map keys) services')
    as [vec' Hvec'].
  { intros s v Hin. rewrite <- Hperm in Hin.
    rewrite <- (Permutation_length Hperm). by apply (Hall s v). }
  rewrite Hvec'. f_equal.
  pose proof (vectorize_items _ _ _ Hvec') as (Hlen' & _).
  assert (length vec' = length vec) as Hsame
    by (by rewrite Hlen', Hlen, (Permutation_length Hperm)).
  apply list_eq. intros i.
  destruct (decide (i < length vec)) as [Hi | Hi].
  - destruct (vectorize_covers keys services vec i Hkeys Hnd Hvec Hi)
      as (s & v & Hs & Hin & Hvi).
    rewrite Hperm in Hin. rewrite Hvi.
    by apply (vectorize_entry keys services' vec' i s v).
  - rewrite !(proj2 (lookup_ge_None _ i)); [done | lia | lia].
Qed.

Lemma vectorize_order_irrelevant_witness :
  _vectorize (build_service_map [7; 8; 9]) [(7, false); (8, true)]
  = Ok [0; 1]%Z.
Proof.
  apply (vectorize_order_irrelevant [7; 8; 9] [(8, true); (7, false)]).
  - apply (bool_decide_unpack _). vm_compute. exact I.
  - apply (bool_decide_unpack _). vm_compute. exact I.
  - apply perm_swap.
  - vm_compute. reflexivity.
Defined.

(** ** Neighbours of compromised machines *)

Lemma step_keeps_neighbours_reachable {G} (np_rand : G → Q * G)
  (e e' : Env G) (a : Action) (reward : Q) (done : bool) :
  (∀ t m, t ∈ compromised_set (current_state e) →
          m ∈ get_address_space (network e) →
          subnets_connected (network e) t.1 m.1 = true →
          m ∈ reachable_set (current_state e)) →
  step np_rand e a = Ok (e', reward, done) →
  ∀ t m, t ∈ compromised_set (current_state e') →
         m ∈ get_address_space (network e') →
         subnets_connected (network e') t.1 m.1 = true →
         m ∈ reachable_set (current_state e').
Proof.
  intros Hinv Hstep t m Ht Hm Hconn.
  destruct (step_static np_rand e a e' reward done Hstep) as (HN & _).
  rewrite HN in Hm, Hconn.
  destruct (decide (knowledge_sets e' = knowledge_sets e)) as [Heq | Hne].
  - unfold knowledge_sets in Heq. injection Heq as Hc Hr _.
    rewrite Hr. rewrite Hc in Ht. by apply (Hinv t m).
  - destruct (step_successful_exploit np_rand e a e' reward done Hstep Hne)
      as (_ & Hcomp & _ & Hre).
    apply Hre. rewrite Hcomp in Ht.
    apply elem_of_union in Ht as [->%elem_of_singleton | Ht].
    + by right.
    + left. by apply (Hinv t m).
Qed.

(** X19. Every machine of the network whose subnet is adjacent to the subnet
    of a compromised machine is reachable: if that holds before a run (as it
    does when nothing is compromised), it holds after it. *)
Theorem neighbours_of_compromised_are_reachable {G} (np_rand : G → Q * G)
  (e e' : Env G) (actions : list Action) (rewards : list Q)
  (dones : list bool) :
  (∀ t m, t ∈ compromised_set (current_state e) →
          m ∈ get_address_space (network e) →
          subnets_connected (network e) t.1 m.1 = true →
          m ∈ reachable_set (current_state e)) →
  run np_rand e actions = Ok (e', rewards, dones) →
  ∀ t m, t ∈ compromised_set (current_state e') →
         m ∈ get_address_space (network e') →
         subnets_connected (network e') t.1 m.1 = true →
         m ∈ reachable_set (current_state e').
Proof.
  apply (run_invariant np_rand
           (λ e, ∀ t m, t ∈ compromised_set (current_state e) →
                        m ∈ get_address_space (network e) →
                        subnets_connected (network e) t.1 m.1 = true →
                        m ∈ reachable_set (current_state e))).
  intros e0 a e1 r d. apply step_keeps_neighbours_reachable.
Qed.

Lemma neighbours_of_compromised_are_reachable_witness :
  (2, 0) ∈ reachable_set
             (current_state (after lcg_rand (demo_env 1) [exploit_10])).
Proof.
  apply (neighbours_of_compromised_are_reachable lcg_rand (demo_env 1)
           (after lcg_rand (demo_env 1) [exploit_10])
           [exploit_10] [9%Q] [false]) with (t := (1, 0)).
  - intros t m Ht. exfalso. revert Ht. apply (bool_decide_unpack _).
    vm_compute. exact I.
  - vm_compute. reflexivity.
  - apply (bool_decide_unpack _). vm_compute. exact I.
  - apply (bool_decide_unpack _). vm_compute. exact I.
  - reflexivity.
Defined.
